(** * FitBot-Ai: the streaming chat client of [src/components/AIChat.tsx]

    A shallow embedding of [sendMessage] (AIChat.tsx, lines 32-120): the
    guard, the request, the read loop that turns the byte fragments of the
    response body into updates of the last chat message, and the error
    path.

    ECMAScript strings are sequences of UTF-16 code units, so a string is
    a [list Z] of code units here, and the methods the component calls on
    strings ([indexOf], [slice], [startsWith], [endsWith], [trim]) are
    written over that representation.  The platform's [TextDecoder] is the
    UTF-8 decoder of the WHATWG Encoding Standard, a byte-at-a-time state
    machine; [JSON.parse] is a parameter of the development (the class
    [Engine]), and a reference engine that follows the JSON grammar is
    supplied for the worked examples. *)

From Stdlib Require Import Strings.String Strings.Byte.
From Stdlib Require Import List ZArith Bool Lia.
Import ListNotations.
Local Open Scope Z_scope.
Set Warnings "-register-all".

(* ================================================================== *)
(** * ECMAScript strings *)
(* ================================================================== *)

Module JsString.

(** A string value: its UTF-16 code units, each in [0, 0xFFFF]. *)
Definition jstr := list Z.

(** An ASCII literal of the source as a string value. *)
Definition lit (s : string) : jstr :=
  map (fun b => Z.of_N (Byte.to_N b)) (list_byte_of_string s).

(** [a === b] on strings. *)
Fixpoint eqb (a b : jstr) : bool :=
  match a, b with
  | [], [] => true
  | x :: a', y :: b' => (x =? y) && eqb a' b'
  | _, _ => false
  end.

(** The code units of "\n" and "\r". *)
Definition LF : Z := 10.
Definition CR : Z := 13.

(** [s.indexOf(c)] for a one-unit search string [c]: the index of the
    first occurrence, or -1. *)
Fixpoint indexOf (c : Z) (s : jstr) : Z :=
  match s with
  | [] => -1
  | x :: t =>
      if x =? c then 0
      else let r := indexOf c t in if r =? -1 then -1 else r + 1
  end.

(** The relative-index rule of [String.prototype.slice]: a negative
    index counts from the end, and both ends are clamped to
    [0, length]. *)
Definition clampIndex (len i : Z) : Z :=
  if i <? 0 then Z.max (len + i) 0 else Z.min i len.

(** [s.slice(from, to)], of strings and of arrays alike. *)
Definition slice {A} (s : list A) (from to : Z) : list A :=
  let len := Z.of_nat (length s) in
  let a := clampIndex len from in
  let b := clampIndex len to in
  firstn (Z.to_nat (b - a)) (skipn (Z.to_nat a) s).

(** [s.slice(from)]: the end defaults to the length. *)
Definition sliceFrom {A} (s : list A) (from : Z) : list A :=
  slice s from (Z.of_nat (length s)).

(** [s.startsWith(p)]. *)
Fixpoint startsWith (s p : jstr) {struct p} : bool :=
  match p, s with
  | [], _ => true
  | y :: p', x :: s' => (x =? y) && startsWith s' p'
  | _ :: _, [] => false
  end.

(** [s.endsWith(p)]. *)
Definition endsWith (s p : jstr) : bool :=
  (length p <=? length s)%nat && eqb (skipn (length s - length p) s) p.

(** WhiteSpace and LineTerminator code points of ECMA-262, the
    characters [trim] removes.  All of them are in the Basic
    Multilingual Plane, so each is one code unit. *)
Definition isWhiteSpace (c : Z) : bool :=
  (c =? 0x0009) || (c =? 0x000A) || (c =? 0x000B) || (c =? 0x000C) ||
  (c =? 0x000D) || (c =? 0x0020) || (c =? 0x00A0) || (c =? 0x1680) ||
  ((0x2000 <=? c) && (c <=? 0x200A)) ||
  (c =? 0x2028) || (c =? 0x2029) || (c =? 0x202F) || (c =? 0x205F) ||
  (c =? 0x3000) || (c =? 0xFEFF).

Fixpoint trimStart (s : jstr) : jstr :=
  match s with
  | [] => []
  | x :: t => if isWhiteSpace x then trimStart t else s
  end.

Definition trimEnd (s : jstr) : jstr := rev (trimStart (rev s)).

(** [s.trim()]. *)
Definition trim (s : jstr) : jstr := trimEnd (trimStart s).

End JsString.
Import JsString.

(* ================================================================== *)
(** * TextDecoder: the streaming UTF-8 decoder *)
(* ================================================================== *)

Module TextDecoder.

(** The state of [new TextDecoder()] between calls of
    [decode(value, { stream: true })]: the variables of the UTF-8
    decoder of the Encoding Standard and the BOM-seen flag. *)
Record t := mk {
  codePoint : Z;
  bytesSeen : Z;
  bytesNeeded : Z;
  lowerBoundary : Z;
  upperBoundary : Z;
  bomSeen : bool
}.

Definition fresh : t := mk 0 0 0 0x80 0xBF false.

(** What the decoder's handler returns for one byte. *)
Inductive Result := Continue | Error | Scalar (cp : Z).

(** The handler when no continuation byte is awaited. *)
Definition lead (d : t) (b : Z) : t * Result :=
  if b <=? 0x7F then (d, Scalar b)
  else if (0xC2 <=? b) && (b <=? 0xDF) then
    (mk (Z.land b 0x1F) (bytesSeen d) 1 (lowerBoundary d) (upperBoundary d)
        (bomSeen d), Continue)
  else if (0xE0 <=? b) && (b <=? 0xEF) then
    (mk (Z.land b 0xF) (bytesSeen d) 2
        (if b =? 0xE0 then 0xA0 else lowerBoundary d)
        (if b =? 0xED then 0x9F else upperBoundary d)
        (bomSeen d), Continue)
  else if (0xF0 <=? b) && (b <=? 0xF4) then
    (mk (Z.land b 0x7) (bytesSeen d) 3
        (if b =? 0xF0 then 0x90 else lowerBoundary d)
        (if b =? 0xF4 then 0x8F else upperBoundary d)
        (bomSeen d), Continue)
  else (d, Error).

(** The handler for one byte.  A byte that cannot continue the current
    sequence ends it with an error and is restored to the input, that is,
    handled again from the reset state; hence up to two results. *)
Definition handler (d : t) (b : Z) : t * list Result :=
  if bytesNeeded d =? 0 then
    let (d', r) := lead d b in (d', [r])
  else if negb ((lowerBoundary d <=? b) && (b <=? upperBoundary d)) then
    let (d', r) := lead (mk 0 0 0 0x80 0xBF (bomSeen d)) b in
    (d', [Error; r])
  else
    let cp := Z.lor (Z.shiftl (codePoint d) 6) (Z.land b 0x3F) in
    let seen := bytesSeen d + 1 in
    if negb (seen =? bytesNeeded d) then
      (mk cp seen (bytesNeeded d) 0x80 0xBF (bomSeen d), [Continue])
    else
      (mk 0 0 0 0x80 0xBF (bomSeen d), [Scalar cp]).

(** A scalar value as UTF-16 code units. *)
Definition utf16 (cp : Z) : jstr :=
  if cp <? 0x10000 then [cp]
  else
    let v := cp - 0x10000 in
    [0xD800 + Z.shiftr v 10; 0xDC00 + Z.land v 0x3FF].

(** Serialising one result: errors become U+FFFD (the decoder is not
    fatal), and the first scalar value of the stream is dropped when it
    is the byte order mark. *)
Definition serialize (d : t) (r : Result) : t * jstr :=
  let scalar (cp : Z) :=
    if bomSeen d then (d, utf16 cp)
    else
      (mk (codePoint d) (bytesSeen d) (bytesNeeded d)
          (lowerBoundary d) (upperBoundary d) true,
       if cp =? 0xFEFF then [] else utf16 cp) in
  match r with
  | Continue => (d, [])
  | Error => scalar 0xFFFD
  | Scalar cp => scalar cp
  end.

Fixpoint serializeAll (d : t) (rs : list Result) : t * jstr :=
  match rs with
  | [] => (d, [])
  | r :: rs' =>
      let (d1, o1) := serialize d r in
      let (d2, o2) := serializeAll d1 rs' in
      (d2, o1 ++ o2)
  end.

Definition decodeByte (d : t) (b : byte) : t * jstr :=
  let (d1, rs) := handler d (Z.of_N (Byte.to_N b)) in
  serializeAll d1 rs.

(** [decoder.decode(value, { stream: true })]: the bytes of [value] are
    handled in order and the state is kept for the next call; nothing is
    flushed at the end of the fragment. *)
Fixpoint decode (d : t) (value : list byte) : t * jstr :=
  match value with
  | [] => (d, [])
  | b :: value' =>
      let (d1, o1) := decodeByte d b in
      let (d2, o2) := decode d1 value' in
      (d2, o1 ++ o2)
  end.

End TextDecoder.

(* ================================================================== *)
(** * JSON values and the accesses the component makes on them *)
(* ================================================================== *)

Module Json.

(** The values [JSON.parse] can return.  A Number value is kept through
    the two things this program can observe of it: its truthiness
    ([truthy], false exactly for +0 and -0) and the string it converts to
    ([shown]).  An object keeps its members in the order of the text. *)
Inductive JSON :=
| JNull
| JBool (b : bool)
| JNumber (truthy : bool) (shown : jstr)
| JString (s : jstr)
| JArray (elements : list JSON)
| JObject (members : list (jstr * JSON)).

(** The JavaScript engine as far as the component relies on it:
    [JSON_parse text] is [None] when [JSON.parse(text)] throws a
    SyntaxError. *)
Class Engine := { JSON_parse : jstr -> option JSON }.

(** A statement that either completes with a value or throws. *)
Inductive Completion (A : Type) :=
| Normal (a : A)
| Throw.
Arguments Normal {A} a.
Arguments Throw {A}.

(** An own property of a parsed object; when the text repeats a name the
    last member wins. *)
Fixpoint lookup (name : jstr) (members : list (jstr * JSON)) : option JSON :=
  match members with
  | [] => None
  | (k, v) :: rest =>
      match lookup name rest with
      | Some later => Some later
      | None => if eqb k name then Some v else None
      end
  end.

(** [v.name] for the names the component reads ([choices], [delta],
    [content]); [None] is [undefined].  Reading a property of [null]
    throws a TypeError.  None of the three names is defined on a built-in
    prototype, so only objects can have them. *)
Definition getNamed (v : JSON) (name : jstr) : Completion (option JSON) :=
  match v with
  | JNull => Throw
  | JObject members => Normal (lookup name members)
  | _ => Normal None
  end.

(** [v[0]]: the first element of an array, the first code unit of a
    string, the member named "0" of an object. *)
Definition getIndex0 (v : JSON) : Completion (option JSON) :=
  match v with
  | JNull => Throw
  | JArray elements => Normal (hd_error elements)
  | JString s =>
      Normal (match s with [] => None | c :: _ => Some (JString [c]) end)
  | JObject members => Normal (lookup (lit "0") members)
  | _ => Normal None
  end.

(** The optional chain [v?.access]: [undefined] when [v] is [undefined]
    or [null]. *)
Definition optional (v : option JSON)
    (access : JSON -> Completion (option JSON)) : Completion (option JSON) :=
  match v with
  | None | Some JNull => Normal None
  | Some x => access x
  end.

Definition bind {A B} (c : Completion A) (k : A -> Completion B)
    : Completion B :=
  match c with
  | Normal a => k a
  | Throw => Throw
  end.

(** [parsed.choices?.[0]?.delta?.content] (AIChat.tsx, line 90). *)
Definition deltaContent (parsed : JSON) : Completion (option JSON) :=
  bind (getNamed parsed (lit "choices")) (fun choices =>
  bind (optional choices getIndex0) (fun first =>
  bind (optional first (fun v => getNamed v (lit "delta"))) (fun delta =>
  optional delta (fun v => getNamed v (lit "content"))))).

(** ToBoolean, as [if (content)] applies it. *)
Definition ToBoolean (v : option JSON) : bool :=
  match v with
  | None => false
  | Some JNull => false
  | Some (JBool b) => b
  | Some (JNumber truthy _) => truthy
  | Some (JString s) => negb (eqb s [])
  | Some (JArray _) => true
  | Some (JObject _) => true
  end.

(** ToString, as [assistantContent += content] applies it.  An array
    is its elements joined by commas, with [null] as the empty string.
    An object converts through [Object.prototype.toString], unless the
    text gave it a member named [toString]: that member is not callable
    and hides the inherited method, and the conversion throws a
    TypeError. *)
Fixpoint ToString (v : JSON) : Completion jstr :=
  match v with
  | JNull => Normal (lit "null")
  | JBool true => Normal (lit "true")
  | JBool false => Normal (lit "false")
  | JNumber _ shown => Normal shown
  | JString s => Normal s
  | JArray elements =>
      (fix join (l : list JSON) : Completion jstr :=
         match l with
         | [] => Normal []
         | x :: rest =>
             bind (match x with JNull => Normal [] | _ => ToString x end)
               (fun first =>
                  match rest with
                  | [] => Normal first
                  | _ :: _ =>
                      bind (join rest) (fun others =>
                        Normal (first ++ lit "," ++ others))
                  end)
         end) elements
  | JObject members =>
      match lookup (lit "toString") members with
      | Some _ => Throw
      | None => Normal (lit "[object Object]")
      end
  end.

End Json.
Import Json.

(* ================================================================== *)
(** * The component: messages, the read loop, [sendMessage] *)
(* ================================================================== *)

Inductive Role := user | assistant.

(** [interface Message] (AIChat.tsx, lines 9-12). *)
Record Message := { role : Role; content : jstr }.

(** What the decoder makes of the stream, in the vocabulary of the
    specification.  A [ContentDelta] records the text appended (line 92)
    and the [setMessages] update it caused (lines 93-100): the list the
    updater received and the list it returned. *)
Inductive StreamEvent :=
| ContentDelta (text : jstr) (prev next : list Message)
| StreamEnd.

(** The state of one streaming response: the locals of [sendMessage]
    declared at lines 57-62, the [messages] state the queued updaters act
    on, and the events so far (a trace kept for the statements; the
    component itself has no such variable). *)
Record Stream := {
  decoder : TextDecoder.t;
  textBuffer : jstr;
  streamDone : bool;
  assistantContent : jstr;
  messages : list Message;
  trace : list StreamEvent
}.

Definition setTextBuffer (s : Stream) (b : jstr) : Stream :=
  {| decoder := decoder s; textBuffer := b; streamDone := streamDone s;
     assistantContent := assistantContent s; messages := messages s;
     trace := trace s |}.

(** The updater of lines 93-100: copy [prev] and write the assistant
    message at index [length - 1].  On an empty array that index is -1,
    which is not an array index: the write creates a property named "-1"
    and the elements and the length stay as they were. *)
Definition replaceLast (assistantContent : jstr) (prev : list Message)
    : list Message :=
  let newMessages := prev in
  match newMessages with
  | [] => newMessages
  | _ :: _ =>
      removelast newMessages ++
      [{| role := assistant; content := assistantContent |}]
  end.

(** How one turn of the inner loop ends: [continue] (or falling off the
    end of the body) goes back to the loop test, [break] leaves the
    loop. *)
Inductive Next :=
| Again (s : Stream)
| Break (s : Stream).

(** Line 78: a trailing carriage return is dropped from the line. *)
Definition chomp (line : jstr) : jstr :=
  if endsWith line [CR] then slice line 0 (-1) else line.

(** Lines 79-82 on the line after [chomp]: [None] when the line is
    skipped with [continue] (a comment, a blank line, a line without the
    [data: ] prefix), otherwise [jsonStr]. *)
Definition payload (line : jstr) : option jstr :=
  if startsWith line (lit ":") || eqb (trim line) [] then None
  else if negb (startsWith line (lit "data: ")) then None
  else Some (trim (sliceFrom line 6)).

Section Decoder.
Context {engine : Engine}.

(** Lines 89-92 for the payload [jsonStr]: the text to append, [None]
    when [content] is falsy, [Throw] when [JSON.parse], the property
    chain or the conversion of [content] to a string throws. *)
Definition contentText (jsonStr : jstr) : Completion (option jstr) :=
  match JSON_parse jsonStr with
  | None => Throw
  | Some parsed =>
      bind (deltaContent parsed) (fun content =>
        match content with
        | Some v =>
            if ToBoolean content then
              bind (ToString v) (fun text => Normal (Some text))
            else Normal None
        | None => Normal None
        end)
  end.

(** The [try] block of lines 88-101.  Whatever throws does so before
    anything is assigned.  The updater is applied here, at the call, so
    [messages] and the lists recorded in [ContentDelta] are those of a
    renderer that runs each updater as soon as it is queued.  A renderer
    that runs the queue later finds in [assistantContent] what has been
    accumulated by then: [runUpdaters] below gives the lists it goes
    through.  The delta texts, [assistantContent], the buffer, the flag
    and the list once the queue has been run do not depend on it. *)
Definition tryBlock (s : Stream) (jsonStr : jstr) : Completion Stream :=
  match contentText jsonStr with
  | Throw => Throw
  | Normal None => Normal s
  | Normal (Some text) =>
      let assistantContent' := assistantContent s ++ text in
      let next := replaceLast assistantContent' (messages s) in
      Normal {| decoder := decoder s; textBuffer := textBuffer s;
                streamDone := streamDone s;
                assistantContent := assistantContent';
                messages := next;
                trace := trace s ++ [ContentDelta text (messages s) next] |}
  end.

(** The body of the inner loop (lines 75-105), entered with the index of
    the first newline of the buffer. *)
Definition lineTurn (s : Stream) (newlineIndex : Z) : Next :=
  let line := slice (textBuffer s) 0 newlineIndex in
  let s := setTextBuffer s (sliceFrom (textBuffer s) (newlineIndex + 1)) in
  let line := chomp line in
  match payload line with
  | None => Again s
  | Some jsonStr =>
      if eqb jsonStr (lit "[DONE]") then
        Break {| decoder := decoder s; textBuffer := textBuffer s;
                 streamDone := true;
                 assistantContent := assistantContent s;
                 messages := messages s;
                 trace := trace s ++ [StreamEnd] |}
      else
        match tryBlock s jsonStr with
        | Normal s' => Again s'
        | Throw => Break (setTextBuffer s (line ++ [LF] ++ textBuffer s))
        end
  end.

(** The inner loop, [while ((newlineIndex = textBuffer.indexOf("\n"))
    !== -1)], with a bound on the number of turns. *)
Fixpoint linesLoop (fuel : nat) (s : Stream) : Stream :=
  match fuel with
  | O => s
  | S fuel' =>
      let newlineIndex := indexOf LF (textBuffer s) in
      if newlineIndex =? -1 then s
      else
        match lineTurn s newlineIndex with
        | Again s' => linesLoop fuel' s'
        | Break s' => s'
        end
  end.

(** Every turn that goes back to the test has taken a line and its
    newline off the buffer, so one more turn than the buffer has code
    units is never reached ([linesLoop_fuel] below). *)
Definition drainLines (s : Stream) : Stream :=
  linesLoop (S (length (textBuffer s))) s.

(** The body of the outer loop for a fragment [value] (lines 71-106). *)
Definition receive (s : Stream) (value : list byte) : Stream :=
  let (decoder', text) := TextDecoder.decode (decoder s) value in
  drainLines {| decoder := decoder'; textBuffer := textBuffer s ++ text;
                streamDone := streamDone s;
                assistantContent := assistantContent s;
                messages := messages s; trace := trace s |}.

(** The outer loop, [while (!streamDone)], over the fragments the reader
    still has to deliver.  It returns the fragments it did not read: all
    that are left once [streamDone] is set, none when the reader ran
    out. *)
Fixpoint readLoop (s : Stream) (pending : list (list byte))
    : Stream * list (list byte) :=
  if streamDone s then (s, pending)
  else
    match pending with
    | [] => (s, [])
    | value :: pending' => readLoop (receive s value) pending'
    end.

End Decoder.

(** How the reader ends after its fragments: [{ done: true }], or a
    rejected [read()]. *)
Inductive Ending := Closed | Aborted.

(** The response body as the reader delivers it. *)
Record Body := { fragments : list (list byte); ending : Ending }.

(** What [fetch] gives: a rejected promise (network failure), or a
    response with its [ok] flag and its [body], which may be null. *)
Inductive FetchResult :=
| Rejects
| Responds (ok : bool) (body : option Body).

Module Chat.

(** The state of the component ([useState], lines 16-23) and what it
    has done to the outside: the number of toasts raised and the bodies
    of the requests issued. *)
Record t := {
  messages : list Message;
  input : jstr;
  loading : bool;
  toasts : nat;
  requests : list (list Message)
}.

End Chat.

(** The stream state when the loop is entered (lines 57-65): fresh
    decoder and buffers, and the assistant placeholder appended. *)
Definition openStream (prev : list Message) : Stream :=
  {| decoder := TextDecoder.fresh; textBuffer := []; streamDone := false;
     assistantContent := [];
     messages := prev ++ [{| role := assistant; content := [] |}];
     trace := [] |}.

(** The [catch] and [finally] blocks (lines 109-119), reached with the
    messages as the updates so far have left them: one toast, the last
    message dropped ([prev.slice(0, -1)]), loading cleared. *)
Definition failed (c : Chat.t) (current : list Message) : Chat.t :=
  {| Chat.messages := slice current 0 (-1);
     Chat.input := Chat.input c;
     Chat.loading := false;
     Chat.toasts := S (Chat.toasts c);
     Chat.requests := Chat.requests c |}.

(** The [finally] block alone, after a [try] block that did not throw. *)
Definition finished (c : Chat.t) (current : list Message) : Chat.t :=
  {| Chat.messages := current;
     Chat.input := Chat.input c;
     Chat.loading := false;
     Chat.toasts := Chat.toasts c;
     Chat.requests := Chat.requests c |}.

Section SendMessage.
Context {engine : Engine}.

(** [sendMessage] (lines 32-120) from the state [c], when the network
    answers with [net].  The result is the state once the call has
    settled, with the stream events of this request. *)
Definition sendMessage (c : Chat.t) (net : FetchResult)
    : Chat.t * list StreamEvent :=
  if eqb (trim (Chat.input c)) [] || Chat.loading c then (c, [])
  else
    let userMessage := {| role := user; content := Chat.input c |} in
    let sent := Chat.messages c ++ [userMessage] in
    let c1 :=
      {| Chat.messages := sent;
         Chat.input := [];
         Chat.loading := true;
         Chat.toasts := Chat.toasts c;
         Chat.requests :=
           Chat.requests c ++ [Chat.messages c ++ [userMessage]] |} in
    match net with
    | Rejects => (failed c1 sent, [])
    | Responds ok body =>
        if negb ok then (failed c1 sent, [])
        else
          match body with
          | None => (finished c1 sent, [])
          | Some b =>
              let (s, _) := readLoop (openStream sent) (fragments b) in
              if streamDone s then (finished c1 (messages s), trace s)
              else
                match ending b with
                | Closed => (finished c1 (messages s), trace s)
                | Aborted => (failed c1 (messages s), trace s)
                end
          end
    end.

End SendMessage.

(* ================================================================== *)
(** * A reference engine: the JSON grammar *)
(* ================================================================== *)

(** [JSON.parse] after ECMA-404, used for the worked examples; the
    theorems hold for every engine.  Numbers: the literal is read exactly
    as [m * 10^e]; it is falsy, and shown as 0, when that value rounds to
    zero in binary64 (it is at most [2^-1075]); otherwise it is shown by
    its plain decimal expansion, which is what Number::toString gives for
    literals of at most 15 significant digits with a value in
    [1e-6, 1e21) (for other numerals the expansion is an approximation of
    it; the examples have none). *)
Module Reference.

Definition isSpace (c : Z) : bool :=
  (c =? 0x20) || (c =? 0x09) || (c =? 0x0A) || (c =? 0x0D).

Fixpoint skipSpace (s : jstr) : jstr :=
  match s with
  | c :: t => if isSpace c then skipSpace t else s
  | [] => []
  end.

Definition isDigit (c : Z) : bool := (48 <=? c) && (c <=? 57).

(** A maximal run of digits: its value on top of [acc], how many digits
    were read on top of [n], and the rest. *)
Fixpoint digitRun (s : jstr) (acc n : Z) : Z * Z * jstr :=
  match s with
  | c :: t => if isDigit c then digitRun t (acc * 10 + (c - 48)) (n + 1)
              else (acc, n, s)
  | [] => (acc, n, [])
  end.

Definition hexDigit (c : Z) : option Z :=
  if isDigit c then Some (c - 48)
  else if (65 <=? c) && (c <=? 70) then Some (c - 55)
  else if (97 <=? c) && (c <=? 102) then Some (c - 87)
  else None.

Definition hex4 (a b c d : Z) : option Z :=
  match hexDigit a, hexDigit b, hexDigit c, hexDigit d with
  | Some x, Some y, Some z, Some w => Some (((x * 16 + y) * 16 + z) * 16 + w)
  | _, _, _, _ => None
  end.

(** The character a one-letter escape stands for. *)
Definition escape (c : Z) : option Z :=
  if c =? 34 then Some 34          (* quotation mark *)
  else if c =? 92 then Some 92     (* reverse solidus *)
  else if c =? 47 then Some 47     (* solidus *)
  else if c =? 98 then Some 8      (* b: backspace *)
  else if c =? 102 then Some 12    (* f: form feed *)
  else if c =? 110 then Some 10    (* n: line feed *)
  else if c =? 114 then Some 13    (* r: carriage return *)
  else if c =? 116 then Some 9     (* t: tab *)
  else None.

(** A string after its opening quote: the value and the rest after the
    closing quote. *)
Fixpoint stringBody (s : jstr) (acc : jstr) : option (jstr * jstr) :=
  match s with
  | [] => None
  | c :: t =>
      if c =? 34 then Some (rev acc, t)
      else if c <? 32 then None
      else if c =? 92 then
        match t with
        | [] => None
        | e :: t' =>
            if e =? 117 then
              match t' with
              | h1 :: h2 :: h3 :: h4 :: t'' =>
                  match hex4 h1 h2 h3 h4 with
                  | Some v => stringBody t'' (v :: acc)
                  | None => None
                  end
              | _ => None
              end
            else
              match escape e with
              | Some v => stringBody t' (v :: acc)
              | None => None
              end
        end
      else stringBody t (c :: acc)
  end.

Fixpoint digitsOf (fuel : nat) (n : Z) (acc : jstr) : jstr :=
  match fuel with
  | O => acc
  | S fuel' =>
      let acc' := (48 + n mod 10) :: acc in
      if n <? 10 then acc' else digitsOf fuel' (n / 10) acc'
  end.

(** The decimal digits of a natural number. *)
Definition decimal (n : Z) : jstr := digitsOf (S (Z.to_nat (Z.log2 n))) n [].

(** Whether [m * 10^e] (with [0 <= m]) is a nonzero binary64 number. *)
Definition nonzero (m e : Z) : bool :=
  if m =? 0 then false
  else if 0 <=? e then true
  else if Z.of_nat (length (decimal m)) + e <=? -324 then false
  else 10 ^ (- e) <? m * 2 ^ 1075.

Fixpoint dropZeros (fuel : nat) (m e : Z) : Z * Z :=
  match fuel with
  | O => (m, e)
  | S fuel' =>
      if (e <? 0) && (m mod 10 =? 0) then dropZeros fuel' (m / 10) (e + 1)
      else (m, e)
  end.

(** The plain decimal expansion of [m * 10^e], signed. *)
Definition expansion (negative : bool) (m e : Z) : jstr :=
  if m =? 0 then lit "0"
  else
    let (m', e') := dropZeros (Z.to_nat (- e)) m e in
    (if negative then lit "-" else []) ++
    (if 0 <=? e' then decimal (m' * 10 ^ e')
     else
       let p := 10 ^ (- e') in
       let frac := decimal (m' mod p) in
       decimal (m' / p) ++ lit "." ++
       repeat 48 (Z.to_nat (- e') - length frac) ++ frac).

(** A number literal: sign, integer part without a leading zero,
    optional fraction, optional exponent. *)
Definition number (s : jstr) : option (JSON * jstr) :=
  let (negative, s1) :=
    match s with
    | c :: t => if c =? 45 then (true, t) else (false, s)
    | [] => (false, s)
    end in
  match s1 with
  | [] => None
  | c :: t =>
      if negb (isDigit c) then None
      else
        let '(ip, _, s2) := if c =? 48 then (0, 1, t) else digitRun s1 0 0 in
        let fraction :=
          match s2 with
          | d :: f =>
              if d =? 46 then
                let '(m, n, s3) := digitRun f ip 0 in
                if n =? 0 then None else Some (m, n, s3)
              else Some (ip, 0, s2)
          | [] => Some (ip, 0, s2)
          end in
        match fraction with
        | None => None
        | Some (m, n, s3) =>
            let exponent :=
              match s3 with
              | x :: r =>
                  if (x =? 101) || (x =? 69) then
                    let (minus, r') :=
                      match r with
                      | g :: r'' =>
                          if g =? 45 then (true, r'')
                          else if g =? 43 then (false, r'')
                          else (false, r)
                      | [] => (false, r)
                      end in
                    let '(v, k, s4) := digitRun r' 0 0 in
                    if k =? 0 then None
                    else Some (if minus then - v else v, s4)
                  else Some (0, s3)
              | [] => Some (0, s3)
              end in
            match exponent with
            | None => None
            | Some (x, s4) =>
                let live := nonzero m (x - n) in
                Some (JNumber live
                        (if live then expansion negative m (x - n)
                         else lit "0"),
                      s4)
            end
        end
  end.

(** A value, the elements of an array after its bracket, the members of
    an object after its brace.  Two units of fuel are spent for each
    code unit at most. *)
Fixpoint value (fuel : nat) (s : jstr) : option (JSON * jstr) :=
  match fuel with
  | O => None
  | S fuel' =>
      match skipSpace s with
      | [] => None
      | c :: t =>
          if c =? 123 then
            match skipSpace t with
            | x :: t' => if x =? 125 then Some (JObject [], t')
                         else members fuel' t []
            | [] => None
            end
          else if c =? 91 then
            match skipSpace t with
            | x :: t' => if x =? 93 then Some (JArray [], t')
                         else elements fuel' t []
            | [] => None
            end
          else if c =? 34 then
            match stringBody t [] with
            | Some (v, rest) => Some (JString v, rest)
            | None => None
            end
          else if startsWith (c :: t) (lit "true") then
            Some (JBool true, skipn 4 (c :: t))
          else if startsWith (c :: t) (lit "false") then
            Some (JBool false, skipn 5 (c :: t))
          else if startsWith (c :: t) (lit "null") then
            Some (JNull, skipn 4 (c :: t))
          else number (c :: t)
      end
  end
with elements (fuel : nat) (s : jstr) (acc : list JSON)
    : option (JSON * jstr) :=
  match fuel with
  | O => None
  | S fuel' =>
      match value fuel' s with
      | None => None
      | Some (v, rest) =>
          match skipSpace rest with
          | c :: t =>
              if c =? 44 then elements fuel' t (v :: acc)
              else if c =? 93 then Some (JArray (rev (v :: acc)), t)
              else None
          | [] => None
          end
      end
  end
with members (fuel : nat) (s : jstr) (acc : list (jstr * JSON))
    : option (JSON * jstr) :=
  match fuel with
  | O => None
  | S fuel' =>
      match skipSpace s with
      | q :: t =>
          if q =? 34 then
            match stringBody t [] with
            | None => None
            | Some (name, rest) =>
                match skipSpace rest with
                | colon :: rest' =>
                    if colon =? 58 then
                      match value fuel' rest' with
                      | None => None
                      | Some (v, rest'') =>
                          match skipSpace rest'' with
                          | c :: t' =>
                              if c =? 44 then
                                members fuel' t' ((name, v) :: acc)
                              else if c =? 125 then
                                Some (JObject (rev ((name, v) :: acc)), t')
                              else None
                          | [] => None
                          end
                      end
                    else None
                | [] => None
                end
            end
          else None
      | [] => None
      end
  end.

(** [JSON.parse(text)]: one value, with nothing but white space around
    it. *)
Definition parse (text : jstr) : option JSON :=
  match value (2 * length text + 2) text with
  | Some (v, rest) =>
      match skipSpace rest with
      | [] => Some v
      | _ :: _ => None
      end
  | None => None
  end.

Definition engine : Engine := {| JSON_parse := parse |}.

End Reference.

(* ================================================================== *)
(** * Vocabulary of the statements *)
(* ================================================================== *)

(** The texts of the content deltas of a trace, in order. *)
Fixpoint deltaTexts (events : list StreamEvent) : list jstr :=
  match events with
  | [] => []
  | ContentDelta text _ _ :: rest => text :: deltaTexts rest
  | StreamEnd :: rest => deltaTexts rest
  end.

(** What a caller can see of a stream state: everything but the decoder
    and the pending buffer. *)
Definition outcome (s : Stream)
    : list StreamEvent * list Message * jstr * bool :=
  (trace s, messages s, assistantContent s, streamDone s).

Definition setDecoder (s : Stream) (d : TextDecoder.t) : Stream :=
  {| decoder := d; textBuffer := textBuffer s; streamDone := streamDone s;
     assistantContent := assistantContent s; messages := messages s;
     trace := trace s |}.

(** Decoded text arriving at the end of the pending buffer (line 71). *)
Definition appendText (s : Stream) (text : jstr) : Stream :=
  setTextBuffer s (textBuffer s ++ text).

(** The state a [data: [DONE]] line leaves (lines 83-86). *)
Definition ended (s : Stream) : Stream :=
  {| decoder := decoder s; textBuffer := textBuffer s; streamDone := true;
     assistantContent := assistantContent s; messages := messages s;
     trace := trace s ++ [StreamEnd] |}.

(** The element at index [length - 1], if any. *)
Definition lastMessage (l : list Message) : option Message :=
  nth_error l (length l - 1).

(** The updates recorded in a trace follow one another from [start] to
    [final]: each one received the list the previous one returned. *)
Fixpoint linked (start : list Message) (events : list StreamEvent)
    (final : list Message) : Prop :=
  match events with
  | [] => start = final
  | ContentDelta _ before after :: rest =>
      before = start /\ linked after rest final
  | StreamEnd :: rest => linked start rest final
  end.

(** An update extends the content of the last message by the delta. *)
Definition extendsLast (e : StreamEvent) : Prop :=
  match e with
  | ContentDelta text before after =>
      exists old,
        lastMessage before = Some {| role := assistant; content := old |} /\
        lastMessage after = Some {| role := assistant; content := old ++ text |}
  | StreamEnd => True
  end.

(** An update leaves the length and every index before the last as they
    were. *)
Definition frame (before after : list Message) : Prop :=
  length after = length before /\
  forall i, (i < length before - 1)%nat ->
    nth_error after i = nth_error before i.

Definition framed (e : StreamEvent) : Prop :=
  match e with
  | ContentDelta _ before after => frame before after
  | StreamEnd => True
  end.

(** StreamEnd is in the trace exactly when the stream is done, and
    then once, as the last event. *)
Definition endsOnly (s : Stream) : Prop :=
  if streamDone s then
    exists events, trace s = events ++ [StreamEnd] /\ ~ In StreamEnd events
  else ~ In StreamEnd (trace s).

(** What holds of a stream state all along a response whose messages
    were [base] before the placeholder: the last message is the assistant
    message with the accumulated content, that content is the deltas put
    together, and every recorded update is linked to the previous one,
    extends the last message and leaves the others alone. *)
Definition inSync (base : list Message) (s : Stream) : Prop :=
  messages s =
    base ++ [{| role := assistant; content := assistantContent s |}] /\
  assistantContent s = concat (deltaTexts (trace s)) /\
  linked (base ++ [{| role := assistant; content := [] |}])
    (trace s) (messages s) /\
  Forall extendsLast (trace s) /\
  Forall framed (trace s).

Section Vocabulary.
Context {engine : Engine}.

(** The [try] block throws on this payload. *)
Definition throws (jsonStr : jstr) : bool :=
  match contentText jsonStr with
  | Throw => true
  | Normal _ => false
  end.

(** A line the loop pushes back: a data line, not the sentinel, on which
    the [try] block throws. *)
Definition malformed (line : jstr) : Prop :=
  exists jsonStr,
    payload (chomp line) = Some jsonStr /\
    eqb jsonStr (lit "[DONE]") = false /\
    throws jsonStr = true.

(** A buffer whose first complete line is malformed. *)
Definition blocked (buffer : jstr) : Prop :=
  exists line rest,
    buffer = line ++ LF :: rest /\ ~ In LF line /\ malformed line.

End Vocabulary.

(** ** Sample inputs for the worked examples *)

(** The bytes of a text, written with apostrophes where it has
    quotation marks. *)
Definition bytesText (s : string) : list byte :=
  map (fun b => match b with x27 => x22 | _ => b end) (list_byte_of_string s).

(** The bytes of a line, newline included. *)
Definition bytesLine (s : string) : list byte := bytesText s ++ [x0a].

Definition hello : Message := {| role := assistant; content := lit "Hi!" |}.

(** The component with a greeting shown and a question typed. *)
Definition asking : Chat.t :=
  {| Chat.messages := [hello]; Chat.input := lit "hi"; Chat.loading := false;
     Chat.toasts := 0; Chat.requests := [] |}.

(** The component while a request is in flight. *)
Definition waiting : Chat.t :=
  {| Chat.messages := [hello; {| role := user; content := lit "hi" |}];
     Chat.input := lit "more"; Chat.loading := true;
     Chat.toasts := 0;
     Chat.requests := [[hello; {| role := user; content := lit "hi" |}]] |}.

(** A stream just opened, with [buffer] pending. *)
Definition pendingStream (buffer : jstr) : Stream :=
  setTextBuffer
    (openStream [hello; {| role := user; content := lit "hi" |}]) buffer.

(** The two events of the example of the specification, with the
    sentinel, as the server words them. *)
Definition helBytes : list byte :=
  bytesLine "data: {'choices':[{'delta':{'content':'Hel'}}]}".
Definition loBytes : list byte :=
  bytesLine "data: {'choices':[{'delta':{'content':'lo'}}]}".
Definition doneBytes : list byte := bytesLine "data: [DONE]".

(** A text written with apostrophes for its quotation marks, as a
    string value. *)
Definition textOf (s : string) : jstr :=
  map (fun b => Z.of_N (Byte.to_N b)) (bytesText s).

(** The line of the first event, and the line of a delta that only
    names the role. *)
Definition helLine : jstr :=
  textOf "data: {'choices':[{'delta':{'content':'Hel'}}]}".
Definition loLine : jstr :=
  textOf "data: {'choices':[{'delta':{'content':'lo'}}]}".
Definition roleLine : jstr :=
  textOf "data: {'choices':[{'delta':{'role':'assistant'}}]}".

(** ** The controls of the form *)

(** The [disabled] attribute of the send button (line 177):
    [loading || !input.trim()]. *)
Definition sendDisabled (c : Chat.t) : bool :=
  Chat.loading c || eqb (trim (Chat.input c)) [].

(** [onChange] of the input field (line 169):
    [setInput(e.target.value)]. *)
Definition typeInput (c : Chat.t) (text : jstr) : Chat.t :=
  {| Chat.messages := Chat.messages c;
     Chat.input := text;
     Chat.loading := Chat.loading c;
     Chat.toasts := Chat.toasts c;
     Chat.requests := Chat.requests c |}.

(** ** Further vocabulary *)

(** A decoder state in which the sequence being read, if any, can only
    end in a code point above ASCII. *)
Definition beyondAscii (d : TextDecoder.t) : Prop :=
  TextDecoder.upperBoundary d <= 0xBF /\
  ((TextDecoder.bytesNeeded d = 0 /\ TextDecoder.bytesSeen d = 0) \/
   (0 <= TextDecoder.bytesSeen d < TextDecoder.bytesNeeded d /\
    TextDecoder.bytesNeeded d <= 3 /\
    0 <= TextDecoder.codePoint d /\
    (128 <= TextDecoder.codePoint d *
            64 ^ (TextDecoder.bytesNeeded d - TextDecoder.bytesSeen d) \/
     (1 < TextDecoder.bytesNeeded d - TextDecoder.bytesSeen d /\
      0x90 <= TextDecoder.lowerBoundary d)))).

(** A result of the decoder's handler that puts no newline in the
    text. *)
Definition quiet (r : TextDecoder.Result) : Prop :=
  match r with
  | TextDecoder.Scalar cp => 128 <= cp \/ (0 <= cp < 128 /\ cp <> 10)
  | _ => True
  end.

(** A state in which the inner loop has nothing to do that a caller
    could see: the stream is done, or no line is complete, or the first
    line is malformed. *)
Definition atRest {engine : Engine} (s : Stream) : Prop :=
  streamDone s = true \/ ~ In LF (textBuffer s) \/ blocked (textBuffer s).

(** The lines of [items], each with its newline, one after another. *)
Definition linesText (items : list (jstr * jstr)) : jstr :=
  concat (map (fun item => fst item ++ [LF]) items).

(** A line that carries the content delta [snd item]. *)
Definition carries {engine : Engine} (item : jstr * jstr) : Prop :=
  ~ In LF (fst item) /\
  exists jsonStr,
    payload (chomp (fst item)) = Some jsonStr /\
    eqb jsonStr (lit "[DONE]") = false /\
    contentText jsonStr = Normal (Some (snd item)).

(** ** The updaters as the renderer runs them *)

(** The variable [assistantContent] once the first [k] deltas have been
    appended to it (line 92). *)
Definition accumulated (texts : list jstr) (k : nat) : jstr :=
  concat (firstn k texts).

(** [setMessages] queues the updater of lines 93-100, and the updater
    reads the variable [assistantContent] when it runs, not when it is
    queued.  A schedule gives, for each updater in the order of the queue,
    how many deltas have been appended by the time it runs.  For the
    updater of rank [rank] that is at least [rank] (it is queued once its
    own delta has been appended), at least [seen], the number the updater
    before it found (the queue is run in order), and no more than the
    deltas there are, [total]. *)
Fixpoint scheduled (rank seen total : nat) (reads : list nat) : Prop :=
  match reads with
  | [] => True
  | j :: rest =>
      (rank <= j)%nat /\ (seen <= j)%nat /\ (j <= total)%nat /\
      scheduled (S rank) j total rest
  end.

(** The lists the updaters return one after another, from [prev], when
    they find the contents the schedule [reads] says. *)
Fixpoint runUpdaters (texts : list jstr) (reads : list nat)
    (prev : list Message) : list (list Message) :=
  match reads with
  | [] => []
  | j :: rest =>
      let next := replaceLast (accumulated texts j) prev in
      next :: runUpdaters texts rest next
  end.

(** From [prev] on, each list is the one before it with the same
    messages before the last, and last the assistant message with its
    content extended. *)
Fixpoint growing (prev : list Message) (lists : list (list Message))
    : Prop :=
  match lists with
  | [] => True
  | next :: rest =>
      (exists older old more,
         prev = older ++ [{| role := assistant; content := old |}] /\
         next = older ++ [{| role := assistant; content := old ++ more |}]) /\
      growing next rest
  end.

(** ** A call of [sendMessage] in two steps *)

(** Lines 33-50, up to the [await] of [fetch]: the guard, then the
    user's message, the input cleared, the loading flag set (line 38) and
    the request issued (line 43).  [None] when the guard returns. *)
Definition beginSend (c : Chat.t) : option Chat.t :=
  if eqb (trim (Chat.input c)) [] || Chat.loading c then None
  else
    let userMessage := {| role := user; content := Chat.input c |} in
    Some {| Chat.messages := Chat.messages c ++ [userMessage];
            Chat.input := [];
            Chat.loading := true;
            Chat.toasts := Chat.toasts c;
            Chat.requests :=
              Chat.requests c ++ [Chat.messages c ++ [userMessage]] |}.

(** The component with the calls of [sendMessage] that have issued their
    request and have not yet reached their [finally] block. *)
Record App := { ui : Chat.t; inFlight : nat }.

(** What happens to the component: the send action is invoked, the user
    types, or the network settles a call in flight. *)
Inductive Action :=
| Send
| Typing (text : jstr)
| Settle (net : FetchResult).

Section Calls.
Context {engine : Engine}.

(** Lines 52-119, from the state [c] the call finds when [fetch] has
    settled with [net].  The updates are all functions of the state they
    find; the loading flag is not written before the [finally] block
    (line 118). *)
Definition settleSend (c : Chat.t) (net : FetchResult)
    : Chat.t * list StreamEvent :=
  let sent := Chat.messages c in
  match net with
  | Rejects => (failed c sent, [])
  | Responds ok body =>
      if negb ok then (failed c sent, [])
      else
        match body with
        | None => (finished c sent, [])
        | Some b =>
            let (s, _) := readLoop (openStream sent) (fragments b) in
            if streamDone s then (finished c (messages s), trace s)
            else
              match ending b with
              | Closed => (finished c (messages s), trace s)
              | Aborted => (failed c (messages s), trace s)
              end
        end
  end.

(** One action.  Each action finds the component rendered with the state
    the action before it left.  Typing is let through even while a
    request is in flight, where the input field is disabled (line 172);
    a settlement needs a call in flight. *)
Definition act (a : App) (x : Action) : App :=
  match x with
  | Send =>
      match beginSend (ui a) with
      | None => a
      | Some c => {| ui := c; inFlight := S (inFlight a) |}
      end
  | Typing text => {| ui := typeInput (ui a) text; inFlight := inFlight a |}
  | Settle net =>
      match inFlight a with
      | O => a
      | S n => {| ui := fst (settleSend (ui a) net); inFlight := n |}
      end
  end.

(** The component after [actions], from the state [c] with no call in
    flight. *)
Definition session (c : Chat.t) (actions : list Action) : App :=
  fold_left act actions {| ui := c; inFlight := 0 |}.

End Calls.

(** The calls in flight are one when the loading flag is set and none
    otherwise. *)
Definition oneFlight (a : App) : Prop :=
  inFlight a = if Chat.loading (ui a) then 1%nat else 0%nat.

Ltac decoder_fields :=
  cbn [fst snd TextDecoder.codePoint TextDecoder.bytesSeen
       TextDecoder.bytesNeeded TextDecoder.lowerBoundary
       TextDecoder.upperBoundary TextDecoder.bomSeen].

(** Evaluates the powers of 64 with a closed exponent. *)
Ltac powers :=
  repeat match goal with
  | |- context [64 ^ ?e] =>
      let v := eval vm_compute in (64 ^ e) in change (64 ^ e) with v
  | H : context [64 ^ ?e] |- _ =>
      let v := eval vm_compute in (64 ^ e) in change (64 ^ e) with v in H
  end.

(** Closes [Forall (fun c => isWhiteSpace c = true) l] for a literal
    [l]. *)
Ltac all_space :=
  repeat (apply Forall_cons; [reflexivity|]); apply Forall_nil.

(** Closes [~ In LF l] for a literal [l]. *)
Ltac no_newline :=
  let H := fresh in intro H; vm_compute in H; intuition discriminate.

(* ================================================================== *)
(** * Strings *)
(* ================================================================== *)

Lemma eqb_eq (a b : jstr) : eqb a b = true <-> a = b.
Proof.
  revert b; induction a as [|x a IH]; intros [|y b]; simpl;
    try (split; [discriminate | discriminate]); [tauto|].
  rewrite andb_true_iff, Z.eqb_eq, IH.
  split; [intros [-> ->]; reflexivity | intros H; inversion H; auto].
Qed.

Lemma eqb_refl (a : jstr) : eqb a a = true.
Proof. apply eqb_eq; reflexivity. Qed.

Lemma indexOf_lower (c : Z) (s : jstr) : -1 <= indexOf c s.
Proof.
  induction s as [|x t IH]; simpl; [lia|].
  destruct (x =? c); [lia|].
  destruct (indexOf c t =? -1); lia.
Qed.

Lemma indexOf_absent (c : Z) (s : jstr) : ~ In c s -> indexOf c s = -1.
Proof.
  induction s as [|x t IH]; simpl; intros H; [reflexivity|].
  destruct (Z.eqb_spec x c) as [->|_]; [tauto|].
  rewrite IH by tauto. reflexivity.
Qed.

Lemma indexOf_first (c : Z) (l r : jstr) :
  ~ In c l -> indexOf c (l ++ c :: r) = Z.of_nat (length l).
Proof.
  induction l as [|x l IH]; simpl; intros H.
  - rewrite Z.eqb_refl; reflexivity.
  - destruct (Z.eqb_spec x c) as [->|_]; [tauto|].
    rewrite IH by tauto.
    destruct (Z.eqb_spec (Z.of_nat (length l)) (-1)); lia.
Qed.

Lemma indexOf_found (c : Z) (s : jstr) :
  indexOf c s <> -1 -> exists l r, s = l ++ c :: r /\ ~ In c l.
Proof.
  induction s as [|x t IH]; simpl; intros H; [congruence|].
  destruct (Z.eqb_spec x c) as [->|Hne].
  - exists [], t; simpl; tauto.
  - destruct (Z.eqb_spec (indexOf c t) (-1)) as [|Hi]; [congruence|].
    destruct (IH Hi) as (l & r & -> & Hl).
    exists (x :: l), r; simpl; split; [reflexivity|].
    intros [?|?]; [congruence | tauto].
Qed.

Lemma slice_range {A} (s : list A) (a b : nat) :
  (a <= b <= length s)%nat ->
  slice s (Z.of_nat a) (Z.of_nat b) = firstn (b - a) (skipn a s).
Proof.
  intros H. unfold slice, clampIndex.
  destruct (Z.ltb_spec (Z.of_nat a) 0); [lia|].
  destruct (Z.ltb_spec (Z.of_nat b) 0); [lia|].
  rewrite !Z.min_l by lia.
  rewrite <- Nat2Z.inj_sub, !Nat2Z.id by lia. reflexivity.
Qed.

Lemma slice_prefix {A} (l r : list A) :
  slice (l ++ r) 0 (Z.of_nat (length l)) = l.
Proof.
  change 0 with (Z.of_nat 0).
  rewrite slice_range by (rewrite length_app; lia).
  rewrite Nat.sub_0_r. simpl skipn.
  rewrite firstn_app, Nat.sub_diag, firstn_all; simpl.
  apply app_nil_r.
Qed.

Lemma sliceFrom_skipn {A} (s : list A) (n : nat) :
  sliceFrom s (Z.of_nat n) = skipn n s.
Proof.
  unfold sliceFrom.
  destruct (Nat.le_gt_cases n (length s)).
  - rewrite slice_range by lia.
    apply firstn_all2. rewrite length_skipn. lia.
  - unfold slice, clampIndex.
    destruct (Z.ltb_spec (Z.of_nat n) 0); [lia|].
    destruct (Z.ltb_spec (Z.of_nat (length s)) 0); [lia|].
    rewrite Z.min_id, Z.min_r by lia. rewrite Nat2Z.id.
    rewrite !skipn_all2 by lia. apply firstn_nil.
Qed.

Lemma sliceFrom_suffix {A} (l r : list A) (x : A) :
  sliceFrom (l ++ x :: r) (Z.of_nat (length l) + 1) = r.
Proof.
  replace (Z.of_nat (length l) + 1) with (Z.of_nat (length (l ++ [x])))
    by (rewrite length_app; simpl; lia).
  rewrite sliceFrom_skipn.
  change (x :: r) with ([x] ++ r). rewrite app_assoc.
  rewrite skipn_app, Nat.sub_diag, skipn_all. reflexivity.
Qed.

Lemma firstn_removelast_len {A} (l : list A) :
  firstn (length l - 1) l = removelast l.
Proof.
  induction l as [|x [|y l] IH]; try reflexivity.
  simpl length in *. rewrite Nat.sub_succ, Nat.sub_0_r in *.
  rewrite firstn_cons.
  change (removelast (x :: y :: l)) with (x :: removelast (y :: l)).
  f_equal. exact IH.
Qed.

Lemma slice_drop_last {A} (l : list A) : slice l 0 (-1) = removelast l.
Proof.
  unfold slice, clampIndex; simpl.
  rewrite Z.min_l by lia. simpl skipn.
  rewrite Z.sub_0_r.
  replace (Z.to_nat (Z.max (Z.of_nat (length l) + -1) 0))
    with (length l - 1)%nat by lia.
  apply firstn_removelast_len.
Qed.

(** ** [startsWith], [endsWith], [chomp] *)

Lemma startsWith_app (p s : jstr) : startsWith (p ++ s) p = true.
Proof.
  induction p as [|x p IH]; simpl; [reflexivity|].
  rewrite Z.eqb_refl; exact IH.
Qed.

Lemma startsWith_inv (s p : jstr) :
  startsWith s p = true -> exists t, s = p ++ t.
Proof.
  revert s; induction p as [|y p IH]; intros s H; simpl in *.
  - exists s; reflexivity.
  - destruct s as [|x s]; [discriminate|].
    apply andb_true_iff in H as [Hx Hs]. apply Z.eqb_eq in Hx as ->.
    destruct (IH _ Hs) as [t ->]. exists t; reflexivity.
Qed.

Lemma endsWith_last (s : jstr) (c : Z) :
  endsWith s [c] = true <-> exists u, s = u ++ [c].
Proof.
  unfold endsWith. simpl length. split.
  - intros H. apply andb_true_iff in H as [_ He]. apply eqb_eq in He.
    exists (firstn (length s - 1) s).
    rewrite <- He. symmetry. apply firstn_skipn.
  - intros [u ->]. rewrite length_app; simpl length.
    apply andb_true_iff; split; [apply Nat.leb_le; lia|].
    replace (length u + 1 - 1)%nat with (length u) by lia.
    rewrite skipn_app, Nat.sub_diag, skipn_all. apply eqb_refl.
Qed.
Lemma chomp_cases (l : jstr) :
  (endsWith l [CR] = false /\ chomp l = l) \/
  (exists u, l = u ++ [CR] /\ chomp l = u).
Proof.
  unfold chomp. destruct (endsWith l [CR]) eqn:E.
  - right. apply endsWith_last in E as [u ->]. exists u.
    rewrite slice_drop_last, removelast_last. auto.
  - left; auto.
Qed.

Lemma chomp_no_newline (l : jstr) : ~ In LF l -> ~ In LF (chomp l).
Proof.
  intros H. destruct (chomp_cases l) as [[_ ->]|(u & -> & ->)]; [exact H|].
  intros Hu. apply H, in_or_app. auto.
Qed.

Lemma chomp_length (l : jstr) : (length (chomp l) <= length l)%nat.
Proof.
  destruct (chomp_cases l) as [[_ ->]|(u & -> & ->)]; [lia|].
  rewrite length_app; simpl; lia.
Qed.

(** ** [trim] *)

Lemma trimStart_snoc (s : jstr) (c : Z) :
  isWhiteSpace c = true ->
  trimStart (s ++ [c]) =
  match trimStart s with [] => [] | _ :: _ => trimStart s ++ [c] end.
Proof.
  intros Hc. induction s as [|x s IH]; simpl.
  - rewrite Hc. reflexivity.
  - destruct (isWhiteSpace x); [exact IH | reflexivity].
Qed.

Lemma trim_snoc (s : jstr) (c : Z) :
  isWhiteSpace c = true -> trim (s ++ [c]) = trim s.
Proof.
  intros Hc. unfold trim, trimEnd. rewrite trimStart_snoc by exact Hc.
  destruct (trimStart s) as [|x t] eqn:E; [reflexivity|].
  rewrite rev_app_distr. simpl rev at 1. simpl app. cbn [trimStart].
  rewrite Hc. reflexivity.
Qed.

Lemma trimStart_keeps_last (s : jstr) (c : Z) :
  isWhiteSpace c = false -> trimStart (s ++ [c]) <> [].
Proof.
  intros Hc. induction s as [|x s IH]; simpl.
  - rewrite Hc. discriminate.
  - destruct (isWhiteSpace x); [exact IH | discriminate].
Qed.

Lemma trim_keeps_first (c : Z) (s : jstr) :
  isWhiteSpace c = false -> trim (c :: s) <> [].
Proof.
  intros Hc. unfold trim, trimEnd. cbn [trimStart]. rewrite Hc.
  simpl rev. intros H.
  apply (f_equal (@rev Z)) in H. rewrite rev_involutive in H. simpl in H.
  exact (trimStart_keeps_last _ _ Hc H).
Qed.

Lemma trim_chomp (l : jstr) : trim (chomp l) = trim l.
Proof.
  destruct (chomp_cases l) as [[_ ->]|(u & -> & ->)]; [reflexivity|].
  symmetry. apply trim_snoc. reflexivity.
Qed.

Lemma startsWith_colon_chomp (l : jstr) :
  startsWith l (lit ":") = true -> startsWith (chomp l) (lit ":") = true.
Proof.
  destruct (chomp_cases l) as [[_ ->]|(u & -> & ->)]; [tauto|].
  destruct u as [|x u]; [discriminate | exact (fun H => H)].
Qed.

(** ** A line tried again gives the same payload *)

Lemma lit_data : lit "data: " = [100; 97; 116; 97; 58; 32].
Proof. reflexivity. Qed.

Lemma payload_chomp (l p : jstr) :
  payload l = Some p -> payload (chomp l) = Some p.
Proof.
  intros H.
  destruct (chomp_cases l) as [[_ ->]|(u & -> & ->)]; [exact H|].
  unfold payload in H.
  destruct (startsWith (u ++ [CR]) (lit ":") || eqb (trim (u ++ [CR])) []);
    [discriminate|].
  destruct (startsWith (u ++ [CR]) (lit "data: ")) eqn:Hd; [|discriminate].
  simpl in H. injection H as <-.
  apply startsWith_inv in Hd as [t Ht].
  destruct (exists_last (l := t)) as (t' & x & ->).
  { intros ->. rewrite app_nil_r in Ht.
    apply (f_equal (@rev Z)) in Ht. rewrite rev_app_distr in Ht.
    vm_compute in Ht. discriminate. }
  rewrite app_assoc in Ht. apply app_inj_tail in Ht as [-> <-].
  rewrite lit_data.
  unfold payload.
  replace (startsWith ([100; 97; 116; 97; 58; 32] ++ t') (lit ":")) with false
    by reflexivity.
  destruct (eqb (trim ([100; 97; 116; 97; 58; 32] ++ t')) []) eqn:E.
  { apply eqb_eq in E. exfalso. revert E. apply trim_keeps_first. reflexivity. }
  rewrite <- lit_data at 1. rewrite <- lit_data at 1.
  rewrite startsWith_app. simpl negb. cbv iota. simpl orb. cbv iota.
  f_equal.
  change 6 with (Z.of_nat (length [100; 97; 116; 97; 58; 32])).
  rewrite !sliceFrom_skipn.
  rewrite <- app_assoc.
  rewrite !skipn_app, !skipn_all, Nat.sub_diag. simpl.
  symmetry. apply trim_snoc. reflexivity.
Qed.
(* ================================================================== *)
(** * The decoder and the loops *)
(* ================================================================== *)

Lemma decode_app (d : TextDecoder.t) (a b : list byte) :
  TextDecoder.decode d (a ++ b) =
  let (d1, t1) := TextDecoder.decode d a in
  let (d2, t2) := TextDecoder.decode d1 b in
  (d2, t1 ++ t2).
Proof.
  revert d; induction a as [|x a IH]; intros d; simpl.
  - destruct (TextDecoder.decode d b); reflexivity.
  - destruct (TextDecoder.decodeByte d x) as [d1 o1].
    rewrite IH.
    destruct (TextDecoder.decode d1 a) as [d2 o2].
    destruct (TextDecoder.decode d2 b) as [d3 o3].
    rewrite app_assoc. reflexivity.
Qed.

Lemma setTextBuffer_same (s : Stream) : setTextBuffer s (textBuffer s) = s.
Proof. destruct s; reflexivity. Qed.

Lemma setDecoder_same (s : Stream) : setDecoder s (decoder s) = s.
Proof. destruct s; reflexivity. Qed.

Section Loops.
Context {engine : Engine}.

(** The [try] block either throws, whatever the state, or completes
    with the buffer, the decoder and the flag untouched. *)
Lemma tryBlock_throws (s : Stream) (p : jstr) :
  throws p = true -> tryBlock s p = Throw.
Proof.
  unfold throws, tryBlock.
  destruct (contentText p); [discriminate | reflexivity].
Qed.

Lemma tryBlock_completes (s : Stream) (p : jstr) :
  throws p = false ->
  exists s', tryBlock s p = Normal s' /\
    textBuffer s' = textBuffer s /\ decoder s' = decoder s /\
    streamDone s' = streamDone s.
Proof.
  unfold throws, tryBlock.
  destruct (contentText p) as [[text|]|]; [| |discriminate];
    intros _; eexists; split; try reflexivity; auto.
Qed.

Lemma tryBlock_setTextBuffer (s : Stream) (b p : jstr) :
  tryBlock (setTextBuffer s b) p =
  match tryBlock s p with
  | Normal s' => Normal (setTextBuffer s' b)
  | Throw => Throw
  end.
Proof.
  unfold tryBlock. destruct (contentText p) as [[text|]|]; reflexivity.
Qed.

Lemma tryBlock_setDecoder (s : Stream) (d : TextDecoder.t) (p : jstr) :
  tryBlock (setDecoder s d) p =
  match tryBlock s p with
  | Normal s' => Normal (setDecoder s' d)
  | Throw => Throw
  end.
Proof.
  unfold tryBlock. destruct (contentText p) as [[text|]|]; reflexivity.
Qed.

(** One turn of the inner loop, in terms of the first line [l] of the
    buffer and what follows it. *)
Lemma lineTurn_line (s : Stream) (l r : jstr) :
  textBuffer s = l ++ LF :: r -> ~ In LF l ->
  lineTurn s (indexOf LF (textBuffer s)) =
  match payload (chomp l) with
  | None => Again (setTextBuffer s r)
  | Some p =>
      if eqb p (lit "[DONE]") then Break (ended (setTextBuffer s r))
      else
        match tryBlock (setTextBuffer s r) p with
        | Normal s' => Again s'
        | Throw => Break (setTextBuffer s (chomp l ++ LF :: r))
        end
  end.
Proof.
  intros Hb Hl. unfold lineTurn. rewrite Hb, indexOf_first by exact Hl.
  rewrite slice_prefix, sliceFrom_suffix.
  destruct (payload (chomp l)) as [p|]; [|reflexivity].
  destruct (eqb p (lit "[DONE]")); [reflexivity|].
  destruct (tryBlock (setTextBuffer s r) p); reflexivity.
Qed.

Lemma lineTurn_shrinks (s s' : Stream) :
  indexOf LF (textBuffer s) <> -1 ->
  lineTurn s (indexOf LF (textBuffer s)) = Again s' ->
  (length (textBuffer s') < length (textBuffer s))%nat.
Proof.
  intros Hi H. destruct (indexOf_found _ _ Hi) as (l & r & Hb & Hl).
  rewrite (lineTurn_line s l r Hb Hl) in H. rewrite Hb, length_app. simpl.
  destruct (payload (chomp l)) as [p|].
  - destruct (eqb p (lit "[DONE]")); [discriminate|].
    destruct (throws p) eqn:T.
    + rewrite tryBlock_throws in H by exact T. discriminate.
    + destruct (tryBlock_completes (setTextBuffer s r) p T) as (x & E & Hx & _).
      rewrite E in H. injection H as <-. rewrite Hx. simpl. lia.
  - injection H as <-. simpl. lia.
Qed.

(** The bound of [drainLines] is never what ends the loop: any larger
    bound gives the same state. *)
Lemma linesLoop_fuel (n m : nat) (s : Stream) :
  (length (textBuffer s) < n)%nat -> (length (textBuffer s) < m)%nat ->
  linesLoop n s = linesLoop m s.
Proof.
  revert m s. induction n as [|n IH]; intros m s Hn Hm; [lia|].
  destruct m as [|m]; [lia|]. simpl.
  destruct (Z.eqb_spec (indexOf LF (textBuffer s)) (-1)) as [|Hi]; [reflexivity|].
  destruct (lineTurn s (indexOf LF (textBuffer s))) as [s'|s'] eqn:E; [|reflexivity].
  pose proof (lineTurn_shrinks s s' Hi E). apply IH; lia.
Qed.

(** The inner loop as the source writes it: test, one turn, and again. *)
Lemma drainLines_unfold (s : Stream) :
  drainLines s =
  if indexOf LF (textBuffer s) =? -1 then s
  else
    match lineTurn s (indexOf LF (textBuffer s)) with
    | Again s' => drainLines s'
    | Break s' => s'
    end.
Proof.
  unfold drainLines at 1. simpl.
  destruct (Z.eqb_spec (indexOf LF (textBuffer s)) (-1)) as [|Hi]; [reflexivity|].
  destruct (lineTurn s (indexOf LF (textBuffer s))) as [s'|s'] eqn:E; [|reflexivity].
  pose proof (lineTurn_shrinks s s' Hi E).
  apply linesLoop_fuel; lia.
Qed.

(** With any bound above the length of the buffer the bounded loop
    reaches the state [drainLines] gives. *)
Lemma drainLines_total (s : Stream) (n : nat) :
  (length (textBuffer s) < n)%nat -> linesLoop n s = drainLines s.
Proof. intros H. apply linesLoop_fuel; [exact H | lia]. Qed.

Lemma drainLines_idle (s : Stream) :
  ~ In LF (textBuffer s) -> drainLines s = s.
Proof.
  intros H. rewrite drainLines_unfold, indexOf_absent by exact H. reflexivity.
Qed.

Lemma drainLines_line (s : Stream) (l r : jstr) :
  textBuffer s = l ++ LF :: r -> ~ In LF l ->
  drainLines s =
  match payload (chomp l) with
  | None => drainLines (setTextBuffer s r)
  | Some p =>
      if eqb p (lit "[DONE]") then ended (setTextBuffer s r)
      else
        match tryBlock (setTextBuffer s r) p with
        | Normal s' => drainLines s'
        | Throw => setTextBuffer s (chomp l ++ LF :: r)
        end
  end.
Proof.
  intros Hb Hl. rewrite drainLines_unfold, (lineTurn_line s l r Hb Hl).
  rewrite Hb at 1. rewrite indexOf_first by exact Hl.
  destruct (Z.eqb_spec (Z.of_nat (length l)) (-1)); [lia|].
  destruct (payload (chomp l)) as [p|]; [|reflexivity].
  destruct (eqb p (lit "[DONE]")); [reflexivity|].
  destruct (tryBlock (setTextBuffer s r) p); reflexivity.
Qed.

End Loops.
Lemma indexOf_present (c : Z) (s : jstr) : In c s -> indexOf c s <> -1.
Proof.
  induction s as [|x t IH]; simpl; [tauto|].
  destruct (Z.eqb_spec x c) as [|Hne]; [lia|].
  intros [?|Hin]; [congruence|]. specialize (IH Hin).
  destruct (Z.eqb_spec (indexOf c t) (-1)); [contradiction|].
  pose proof (indexOf_lower c t). lia.
Qed.

(** Induction over the lines of the pending buffer. *)
Lemma by_lines (P : Stream -> Prop) :
  (forall s, ~ In LF (textBuffer s) -> P s) ->
  (forall s l r, textBuffer s = l ++ LF :: r -> ~ In LF l ->
     (forall s', (length (textBuffer s') <= length r)%nat -> P s') -> P s) ->
  forall s, P s.
Proof.
  intros Hidle Hline s.
  remember (length (textBuffer s)) as n eqn:Hn.
  assert (Hle : (length (textBuffer s) <= n)%nat) by lia. clear Hn.
  revert s Hle. induction n as [|n IH]; intros s Hle.
  - apply Hidle. destruct (textBuffer s); [tauto | simpl in Hle; lia].
  - destruct (Z.eq_dec (indexOf LF (textBuffer s)) (-1)) as [Hi|Hi].
    + apply Hidle. intros Hin. exact (indexOf_present _ _ Hin Hi).
    + destruct (indexOf_found _ _ Hi) as (l & r & Hb & Hl).
      apply (Hline s l r Hb Hl). intros s' Hs'. apply IH.
      rewrite Hb, length_app in Hle. simpl in Hle. lia.
Qed.

Section Append.
Context {engine : Engine}.

Lemma drainLines_setDecoder (d : TextDecoder.t) (s : Stream) :
  drainLines (setDecoder s d) = setDecoder (drainLines s) d.
Proof.
  induction s as [s Hs | s l r Hb Hl IH] using by_lines.
  - rewrite !drainLines_idle by exact Hs. reflexivity.
  - rewrite (drainLines_line (setDecoder s d) l r Hb Hl).
    rewrite (drainLines_line s l r Hb Hl).
    destruct (payload (chomp l)) as [p|].
    + destruct (eqb p (lit "[DONE]")); [reflexivity|].
      change (setTextBuffer (setDecoder s d) r)
        with (setDecoder (setTextBuffer s r) d).
      rewrite tryBlock_setDecoder.
      destruct (throws p) eqn:T.
      * rewrite tryBlock_throws by exact T. reflexivity.
      * destruct (tryBlock_completes (setTextBuffer s r) p T)
          as (s' & -> & Hs' & _).
        apply IH. rewrite Hs'. simpl. lia.
    + apply (IH (setTextBuffer s r)). simpl. lia.
Qed.

Lemma drainLines_decoder (s : Stream) : decoder (drainLines s) = decoder s.
Proof.
  rewrite <- (setDecoder_same s) at 1.
  rewrite drainLines_setDecoder. reflexivity.
Qed.

Lemma malformed_chomp (l : jstr) : malformed l -> malformed (chomp l).
Proof.
  intros (p & Hp & Hd & Ht). exists p. auto using payload_chomp.
Qed.

Lemma blocked_app (b t : jstr) : blocked b -> blocked (b ++ t).
Proof.
  intros (l & r & -> & Hl & Hm). exists l, (r ++ t).
  rewrite <- app_assoc. auto.
Qed.

(** A malformed first line is pushed back and ends the loop. *)
Lemma drainLines_malformed (s : Stream) (l r : jstr) :
  textBuffer s = l ++ LF :: r -> ~ In LF l -> malformed l ->
  drainLines s = setTextBuffer s (chomp l ++ LF :: r).
Proof.
  intros Hb Hl (p & Hp & Hd & Ht).
  rewrite (drainLines_line s l r Hb Hl), Hp, Hd.
  rewrite tryBlock_throws by exact Ht. reflexivity.
Qed.

(** Text that arrives later does not change what the loop does with the
    lines already complete: either the loop runs out of lines, and the
    later text is processed from the state it reached, or it was left by
    [break], and the later text just stays behind in the buffer. *)
Lemma drainLines_append (t : jstr) (s : Stream) :
  (~ In LF (textBuffer (drainLines s)) /\
   streamDone (drainLines s) = streamDone s /\
   drainLines (appendText s t) = drainLines (appendText (drainLines s) t))
  \/
  ((streamDone (drainLines s) = true \/ blocked (textBuffer (drainLines s))) /\
   drainLines (appendText s t) = appendText (drainLines s) t).
Proof.
  induction s as [s Hs | s l r Hb Hl IH] using by_lines.
  - left. rewrite drainLines_idle by exact Hs. auto.
  - assert (Hb' : textBuffer (appendText s t) = l ++ LF :: (r ++ t)).
    { simpl. rewrite Hb, <- app_assoc. reflexivity. }
    rewrite (drainLines_line (appendText s t) l (r ++ t) Hb' Hl).
    rewrite (drainLines_line s l r Hb Hl).
    change (setTextBuffer (appendText s t) (r ++ t))
      with (appendText (setTextBuffer s r) t).
    destruct (payload (chomp l)) as [p|] eqn:Hp.
    + destruct (eqb p (lit "[DONE]")) eqn:Hd.
      * right. split; [left; reflexivity | reflexivity].
      * assert (E : tryBlock (appendText (setTextBuffer s r) t) p =
                    match tryBlock (setTextBuffer s r) p with
                    | Normal s' => Normal (setTextBuffer s' (r ++ t))
                    | Throw => Throw
                    end) by apply tryBlock_setTextBuffer.
        rewrite E. clear E.
        destruct (throws p) eqn:T.
        -- rewrite tryBlock_throws by exact T. right. split.
           ++ right. exists (chomp l), r. simpl.
              split; [reflexivity|]. split; [apply chomp_no_newline, Hl|].
              apply malformed_chomp. exists p. auto.
           ++ unfold appendText, setTextBuffer. simpl.
              rewrite <- app_assoc. reflexivity.
        -- destruct (tryBlock_completes (setTextBuffer s r) p T)
             as (s' & -> & Hs' & _ & Hf).
           simpl in Hs', Hf. rewrite <- Hf.
           replace (setTextBuffer s' (r ++ t)) with (appendText s' t)
             by (unfold appendText; rewrite Hs'; reflexivity).
           apply IH. rewrite Hs'. lia.
    + apply (IH (setTextBuffer s r)). simpl. lia.
Qed.

End Append.
Section Fragments.
Context {engine : Engine}.

Lemma receive_decoded (s : Stream) (value : list byte) :
  receive s value =
  drainLines (setDecoder (appendText s (snd (TextDecoder.decode (decoder s) value)))
                         (fst (TextDecoder.decode (decoder s) value))).
Proof.
  unfold receive. destruct (TextDecoder.decode (decoder s) value); reflexivity.
Qed.

Lemma outcome_setDecoder (s : Stream) (d : TextDecoder.t) :
  outcome (setDecoder s d) = outcome s.
Proof. reflexivity. Qed.

Lemma outcome_appendText (s : Stream) (t : jstr) :
  outcome (appendText s t) = outcome s.
Proof. reflexivity. Qed.

Lemma outcome_done (s s' : Stream) :
  outcome s = outcome s' -> streamDone s = streamDone s'.
Proof. unfold outcome. congruence. Qed.

(** On a blocked buffer a fragment changes nothing a caller can see,
    and leaves the buffer blocked. *)
Lemma receive_blocked (s : Stream) (value : list byte) :
  blocked (textBuffer s) ->
  outcome (receive s value) = outcome s /\ blocked (textBuffer (receive s value)).
Proof.
  intros (l & r & Hb & Hl & Hm).
  rewrite receive_decoded.
  set (text := snd (TextDecoder.decode (decoder s) value)).
  set (d := fst (TextDecoder.decode (decoder s) value)).
  rewrite drainLines_setDecoder.
  assert (Hb' : textBuffer (appendText s text) = l ++ LF :: (r ++ text)).
  { simpl. rewrite Hb, <- app_assoc. reflexivity. }
  rewrite (drainLines_malformed _ l (r ++ text) Hb' Hl Hm).
  split; [reflexivity|].
  exists (chomp l), (r ++ text). simpl.
  auto using chomp_no_newline, malformed_chomp.
Qed.

Lemma readLoop_blocked (pending : list (list byte)) (s : Stream) :
  blocked (textBuffer s) ->
  outcome (fst (readLoop s pending)) = outcome s.
Proof.
  revert s. induction pending as [|value pending IH]; intros s Hb; simpl.
  - destruct (streamDone s); reflexivity.
  - destruct (streamDone s); [reflexivity|].
    destruct (receive_blocked s value Hb) as [Ho Hb'].
    rewrite IH by exact Hb'. exact Ho.
Qed.

(** Two fragments against their concatenation as one fragment: either
    the states agree, or the first fragment already ended the stream or
    blocked the buffer and the outcomes agree. *)
Lemma receive_app (s : Stream) (a b : list byte) :
  (streamDone (receive s a) = streamDone s /\
   receive (receive s a) b = receive s (a ++ b))
  \/
  (outcome (receive s (a ++ b)) = outcome (receive s a) /\
   (streamDone (receive s a) = true \/
    blocked (textBuffer (receive s a)) /\
    blocked (textBuffer (receive s (a ++ b))))).
Proof.
  destruct (TextDecoder.decode (decoder s) a) as [d1 t1] eqn:Ea.
  destruct (TextDecoder.decode d1 b) as [d2 t2] eqn:Eb.
  set (y := appendText s t1).
  assert (Ha : receive s a = setDecoder (drainLines y) d1).
  { rewrite receive_decoded, Ea. apply drainLines_setDecoder. }
  assert (Hab : receive s (a ++ b) = setDecoder (drainLines (appendText y t2)) d2).
  { rewrite receive_decoded, decode_app, Ea, Eb. simpl fst; simpl snd.
    rewrite drainLines_setDecoder. f_equal. f_equal.
    unfold y, appendText, setTextBuffer; simpl. rewrite app_assoc. reflexivity. }
  assert (Hb : receive (receive s a) b =
               setDecoder (drainLines (appendText (drainLines y) t2)) d2).
  { rewrite receive_decoded, Ha. simpl decoder. rewrite Eb. simpl fst; simpl snd.
    change (appendText (setDecoder (drainLines y) d1) t2)
      with (setDecoder (appendText (drainLines y) t2) d1).
    change (setDecoder (setDecoder (appendText (drainLines y) t2) d1) d2)
      with (setDecoder (appendText (drainLines y) t2) d2).
    apply drainLines_setDecoder. }
  rewrite Hb, Hab, Ha. clear Ha Hab Hb.
  destruct (drainLines_append t2 y) as [(_ & Hf & E)|[Hstop E]].
  - left. rewrite E. simpl. split; [exact Hf | reflexivity].
  - right. rewrite E. split; [reflexivity|].
    destruct Hstop as [Hd|Hk]; [left; exact Hd|].
    right. split; [exact Hk|]. simpl. apply blocked_app, Hk.
Qed.

Lemma readLoop_merge (s : Stream) (a b : list byte) (rest : list (list byte)) :
  outcome (fst (readLoop s (a :: b :: rest))) =
  outcome (fst (readLoop s ((a ++ b) :: rest))).
Proof.
  cbn [readLoop]. destruct (streamDone s) eqn:Hs; [reflexivity|].
  destruct (receive_app s a b) as [[Hf E]|[Ho Hstop]].
  - rewrite Hf, Hs, E. reflexivity.
  - pose proof (outcome_done _ _ Ho) as Hd.
    destruct (streamDone (receive s a)) eqn:Ha.
    + destruct rest; simpl; rewrite Hd; symmetry; exact Ho.
    + destruct Hstop as [|[Hb1 Hb2]]; [discriminate|].
      fold (readLoop (receive (receive s a) b) rest).
      fold (readLoop (receive s a) (b :: rest)).
      pose proof (readLoop_blocked (b :: rest) _ Hb1) as E1.
      cbn [readLoop] in E1. rewrite Ha in E1. rewrite E1.
      rewrite readLoop_blocked by exact Hb2. symmetry; exact Ho.
Qed.

(** However the bytes are cut into fragments, the outcome is that of
    the bytes delivered as one fragment. *)
Lemma readLoop_concat (s : Stream) (a : list byte) (rest : list (list byte)) :
  outcome (fst (readLoop s (a :: rest))) =
  outcome (fst (readLoop s [a ++ concat rest])).
Proof.
  revert a. induction rest as [|b rest IH]; intros a.
  - simpl concat. rewrite app_nil_r. reflexivity.
  - rewrite readLoop_merge, IH. simpl concat. rewrite app_assoc. reflexivity.
Qed.

End Fragments.
(* ================================================================== *)
(** * The message list along a response *)
(* ================================================================== *)

Lemma deltaTexts_app (a b : list StreamEvent) :
  deltaTexts (a ++ b) = deltaTexts a ++ deltaTexts b.
Proof.
  induction a as [|[text before after|] a IH]; simpl; [reflexivity| |exact IH].
  rewrite IH. reflexivity.
Qed.

Lemma linked_app (start mid final : list Message) (a b : list StreamEvent) :
  linked start a mid -> linked mid b final -> linked start (a ++ b) final.
Proof.
  revert start. induction a as [|[text before after|] a IH]; simpl; intros start.
  - intros ->. auto.
  - intros [-> Ha] Hb. split; [reflexivity|]. apply IH; assumption.
  - apply IH.
Qed.

Lemma replaceLast_snoc (text : jstr) (base : list Message) (m : Message) :
  replaceLast text (base ++ [m]) = base ++ [{| role := assistant; content := text |}].
Proof.
  unfold replaceLast. destruct (base ++ [m]) as [|x l] eqn:E.
  - destruct base; discriminate.
  - rewrite <- E, removelast_last. reflexivity.
Qed.

Lemma lastMessage_snoc (base : list Message) (m : Message) :
  lastMessage (base ++ [m]) = Some m.
Proof.
  unfold lastMessage. rewrite length_app. simpl length.
  rewrite nth_error_app2 by lia.
  replace (length base + 1 - 1 - length base)%nat with O by lia. reflexivity.
Qed.

(** The updater of lines 93-100 keeps the length and every element but
    the last, whatever list it is given. *)
Lemma replaceLast_frame (text : jstr) (prev : list Message) :
  frame prev (replaceLast text prev).
Proof.
  unfold frame, replaceLast. destruct prev as [|x l]; [split; [reflexivity | tauto]|].
  destruct (exists_last (l := x :: l)) as (base & m & E); [discriminate|].
  rewrite E, removelast_last, !length_app. simpl length. split; [reflexivity|].
  intros i Hi. rewrite !nth_error_app1 by lia. reflexivity.
Qed.

Section Invariant.
Context {engine : Engine}.

(** A property kept by the three ways the loop changes the state is
    kept by the loop. *)
Lemma drainLines_preserves (P : Stream -> Prop) :
  (forall s b, P s -> P (setTextBuffer s b)) ->
  (forall s, P s -> P (ended s)) ->
  (forall s p s', P s -> tryBlock s p = Normal s' -> P s') ->
  forall s, P s -> P (drainLines s).
Proof.
  intros Hbuf Hend Htry s.
  induction s as [s Hs | s l r Hb Hl IH] using by_lines; intros HP.
  - rewrite drainLines_idle by exact Hs. exact HP.
  - rewrite (drainLines_line s l r Hb Hl).
    destruct (payload (chomp l)) as [p|].
    + destruct (eqb p (lit "[DONE]")); [auto|].
      destruct (throws p) eqn:T.
      * rewrite tryBlock_throws by exact T. auto.
      * destruct (tryBlock_completes (setTextBuffer s r) p T)
          as (s' & E & Hs' & _).
        rewrite E. apply IH; [rewrite Hs'; simpl; lia|].
        apply (Htry _ _ _ (Hbuf s r HP) E).
    + apply IH; [simpl; lia | auto].
Qed.

Lemma readLoop_preserves (P : Stream -> Prop) :
  (forall s b d, P s -> P (setDecoder (setTextBuffer s b) d)) ->
  (forall s, P s -> P (ended s)) ->
  (forall s p s', P s -> tryBlock s p = Normal s' -> P s') ->
  forall pending s, P s -> P (fst (readLoop s pending)).
Proof.
  intros Hbuf Hend Htry.
  assert (Hb : forall s b, P s -> P (setTextBuffer s b)).
  { intros s b HP. rewrite <- (setDecoder_same (setTextBuffer s b)).
    apply (Hbuf s b (decoder s) HP). }
  induction pending as [|value pending IH]; intros s HP; simpl.
  - destruct (streamDone s); exact HP.
  - destruct (streamDone s); [exact HP|]. apply IH.
    rewrite receive_decoded.
    apply drainLines_preserves; auto.
    apply (Hbuf s _ _ HP).
Qed.

Lemma inSync_open (base : list Message) : inSync base (openStream base).
Proof. repeat split; constructor. Qed.

Lemma inSync_tryBlock (base : list Message) (s s' : Stream) (p : jstr) :
  inSync base s -> tryBlock s p = Normal s' -> inSync base s'.
Proof.
  intros (Hm & Ha & Hl & He & Hf). unfold tryBlock.
  destruct (contentText p) as [[text|]|]; [| |discriminate].
  - intros H. injection H as <-. unfold inSync. simpl.
    rewrite Hm at 1. rewrite replaceLast_snoc.
    repeat split.
    + rewrite deltaTexts_app, concat_app, <- Ha. simpl. rewrite app_nil_r.
      reflexivity.
    + eapply linked_app; [exact Hl|]. simpl. rewrite Hm, replaceLast_snoc. auto.
    + apply Forall_app; split; [exact He|]. constructor; [|constructor].
      simpl. exists (assistantContent s).
      rewrite Hm at 1. rewrite Hm, replaceLast_snoc, !lastMessage_snoc. auto.
    + apply Forall_app; split; [exact Hf|]. constructor; [|constructor].
      apply replaceLast_frame.
  - intros H. injection H as <-. repeat split; assumption.
Qed.

Lemma inSync_ended (base : list Message) (s : Stream) :
  inSync base s -> inSync base (ended s).
Proof.
  intros (Hm & Ha & Hl & He & Hf). unfold inSync. simpl.
  rewrite deltaTexts_app. simpl. rewrite app_nil_r.
  repeat split; try assumption.
  - eapply linked_app; [exact Hl | reflexivity].
  - apply Forall_app; split; [exact He | repeat constructor].
  - apply Forall_app; split; [exact Hf | repeat constructor].
Qed.

Lemma inSync_readLoop (base : list Message) (pending : list (list byte)) :
  inSync base (fst (readLoop (openStream base) pending)).
Proof.
  apply (readLoop_preserves (inSync base)).
  - intros s b d H. exact H.
  - apply inSync_ended.
  - intros s p s'. apply inSync_tryBlock.
  - apply inSync_open.
Qed.

End Invariant.
(* ================================================================== *)
(** * Queued updaters and calls in flight *)
(* ================================================================== *)

Lemma firstn_le_app {A} (l : list A) (a b : nat) :
  (a <= b)%nat -> exists more, firstn b l = firstn a l ++ more.
Proof.
  revert a b. induction l as [|x l IH]; intros a b H.
  - exists []. rewrite !firstn_nil. reflexivity.
  - destruct a as [|a].
    + exists (firstn b (x :: l)). reflexivity.
    + destruct b as [|b]; [lia|].
      destruct (IH a b) as [more E]; [lia|].
      exists more. simpl. rewrite E. reflexivity.
Qed.

(** The variable only grows: what an updater finds extends what any
    earlier one found. *)
Lemma accumulated_grows (texts : list jstr) (a b : nat) :
  (a <= b)%nat ->
  exists more, accumulated texts b = accumulated texts a ++ more.
Proof.
  intros H. destruct (firstn_le_app texts a b H) as [more E].
  exists (concat more). unfold accumulated. rewrite E. apply concat_app.
Qed.

Lemma runUpdaters_growing (texts : list jstr) (total : nat)
    (older : list Message) (reads : list nat) (rank seen : nat) :
  scheduled rank seen total reads ->
  growing
    (older ++ [{| role := assistant; content := accumulated texts seen |}])
    (runUpdaters texts reads
       (older ++ [{| role := assistant; content := accumulated texts seen |}])).
Proof.
  revert rank seen. induction reads as [|j reads IH]; intros rank seen H.
  - exact I.
  - destruct H as (_ & Hs & _ & H). simpl.
    rewrite replaceLast_snoc. split; [|exact (IH _ _ H)].
    destruct (accumulated_grows texts seen j Hs) as [more E].
    exists older, (accumulated texts seen), more. rewrite E. auto.
Qed.

Lemma runUpdaters_last (texts : list jstr) (older : list Message)
    (reads : list nat) (old : jstr) (j : nat) :
  last (runUpdaters texts (reads ++ [j])
          (older ++ [{| role := assistant; content := old |}])) [] =
  older ++ [{| role := assistant; content := accumulated texts j |}].
Proof.
  revert old. induction reads as [|i reads IH]; intros old.
  - simpl. apply replaceLast_snoc.
  - change ((i :: reads) ++ [j]) with (i :: (reads ++ [j])).
    cbn [runUpdaters]. rewrite replaceLast_snoc.
    rewrite <- (IH (accumulated texts i)).
    destruct (runUpdaters texts (reads ++ [j])
                (older ++
                 [{| role := assistant; content := accumulated texts i |}]))
      eqn:E; [|reflexivity].
    destruct reads; discriminate.
Qed.

(** Two schedules there always are: every updater run at the call that
    queued it, and every updater run after the last delta. *)
Lemma scheduled_at_call (total k m : nat) :
  (k + m <= total)%nat -> scheduled (S k) k total (seq (S k) m).
Proof.
  revert k. induction m as [|m IH]; intros k H; simpl; [exact I|].
  repeat split; try lia. apply IH. lia.
Qed.

Lemma scheduled_at_end (total rank seen m : nat) :
  (rank + m <= S total)%nat -> (seen <= total)%nat ->
  scheduled rank seen total (repeat total m).
Proof.
  revert rank seen. induction m as [|m IH]; intros rank seen H Hs; simpl;
    [exact I|].
  repeat split; try lia. apply IH; lia.
Qed.

Section Flights.
Context {engine : Engine}.

(** The two steps, one after the other, are the call. *)
Lemma sendMessage_two_steps (c : Chat.t) (net : FetchResult) :
  sendMessage c net =
  match beginSend c with
  | None => (c, [])
  | Some c1 => settleSend c1 net
  end.
Proof.
  unfold sendMessage, beginSend.
  destruct (eqb (trim (Chat.input c)) [] || Chat.loading c); reflexivity.
Qed.

(** Every way out of the call goes through the [finally] block. *)
Lemma settleSend_loading (c : Chat.t) (net : FetchResult) :
  Chat.loading (fst (settleSend c net)) = false.
Proof.
  unfold settleSend. destruct net as [|ok body]; [reflexivity|].
  destruct ok; [|reflexivity]. simpl negb. cbv iota.
  destruct body as [b|]; [|reflexivity].
  destruct (readLoop (openStream (Chat.messages c)) (fragments b)) as [s u].
  destruct (streamDone s); [reflexivity|].
  destruct (ending b); reflexivity.
Qed.

Lemma act_oneFlight (a : App) (x : Action) :
  oneFlight a -> oneFlight (act a x).
Proof.
  unfold oneFlight. intros H. destruct x as [|text|net]; simpl.
  - unfold beginSend.
    destruct (Chat.loading (ui a)) eqn:L.
    + rewrite orb_true_r. rewrite L. exact H.
    + rewrite orb_false_r. destruct (eqb (trim (Chat.input (ui a))) []).
      * rewrite L. exact H.
      * simpl. rewrite H. reflexivity.
  - exact H.
  - destruct (inFlight a) as [|n] eqn:E.
    + rewrite E. exact H.
    + simpl. rewrite settleSend_loading.
      destruct (Chat.loading (ui a)); [congruence | discriminate].
Qed.

Lemma session_oneFlight (actions : list Action) (a : App) :
  oneFlight a -> oneFlight (fold_left act actions a).
Proof.
  revert a. induction actions as [|x actions IH]; intros a H; simpl;
    [exact H|].
  apply IH, act_oneFlight, H.
Qed.

End Flights.

(* ================================================================== *)
(** * The specification's statements *)
(* ================================================================== *)

Section Statements.
Context {engine : Engine}.

Lemma parse_failure_throws (jsonStr : jstr) :
  JSON_parse jsonStr = None -> throws jsonStr = true.
Proof. unfold throws, contentText. intros ->. reflexivity. Qed.

Lemma readLoop_single_empty (base : list Message) :
  fst (readLoop (openStream base) [[]]) = openStream base.
Proof.
  simpl. rewrite receive_decoded. simpl. apply drainLines_idle. simpl. tauto.
Qed.

(** C1. However a byte stream is cut into fragments, at any byte
    offsets (inside a line, inside a multi-byte character), the read
    loop gives the same content deltas in the same order, and the same
    messages, as when the whole stream arrives as one fragment.  This
    holds for every byte stream, well-formed or not. *)
Theorem fragmentation_invariance (base : list Message)
    (frags : list (list byte)) :
  let split := fst (readLoop (openStream base) frags) in
  let whole := fst (readLoop (openStream base) [concat frags]) in
  deltaTexts (trace split) = deltaTexts (trace whole) /\
  outcome split = outcome whole.
Proof.
  assert (H : outcome (fst (readLoop (openStream base) frags)) =
              outcome (fst (readLoop (openStream base) [concat frags]))).
  { destruct frags as [|a rest].
    - simpl concat. rewrite readLoop_single_empty. reflexivity.
    - apply readLoop_concat. }
  simpl. split; [|exact H].
  unfold outcome in H. injection H as Ht _ _ _. rewrite Ht. reflexivity.
Qed.

(** C2, as amended.  When the payload of a data line fails to parse,
    the line with its [data: ] prefix (the variable [line], from which
    line 78 has taken a trailing carriage return if there was one) and a
    newline go back to the front of the buffer, so that a line without carriage
    return leaves the state as it was; the loop is left at once whatever
    complete lines follow, and the next fragment is appended behind the
    line that was pushed back. *)
Theorem malformed_line_pushed_back (s : Stream) (l r jsonStr : jstr) :
  textBuffer s = l ++ LF :: r -> ~ In LF l ->
  payload (chomp l) = Some jsonStr ->
  eqb jsonStr (lit "[DONE]") = false ->
  JSON_parse jsonStr = None ->
  let held := setTextBuffer s (chomp l ++ LF :: r) in
  lineTurn s (indexOf LF (textBuffer s)) = Break held /\
  drainLines s = held /\
  (endsWith l [CR] = false -> held = s) /\
  forall value,
    receive held value =
    drainLines
      (setDecoder
         (setTextBuffer s (chomp l ++ LF :: r ++
                           snd (TextDecoder.decode (decoder s) value)))
         (fst (TextDecoder.decode (decoder s) value))).
Proof.
  intros Hb Hl Hp Hd Hj. apply parse_failure_throws in Hj. simpl.
  split; [|split; [|split]].
  - rewrite (lineTurn_line s l r Hb Hl), Hp, Hd.
    rewrite tryBlock_throws by exact Hj. reflexivity.
  - apply drainLines_malformed; [assumption..|]. exists jsonStr. auto.
  - intros Hc. unfold chomp. rewrite Hc, <- Hb. apply setTextBuffer_same.
  - intros value. rewrite receive_decoded. simpl.
    unfold appendText, setTextBuffer. simpl. rewrite <- app_assoc. reflexivity.
Qed.

(** C3. When the line taken from the buffer carries the sentinel, the
    loop ends there with StreamEnd as the last event: what follows in
    the buffer stays unprocessed, and the read loop returns the
    fragments still pending without reading any. *)
Theorem done_ends_stream (s : Stream) (l r : jstr)
    (pending : list (list byte)) :
  textBuffer s = l ++ LF :: r -> ~ In LF l ->
  payload (chomp l) = Some (lit "[DONE]") ->
  let final := ended (setTextBuffer s r) in
  drainLines s = final /\
  trace final = trace s ++ [StreamEnd] /\
  textBuffer final = r /\
  readLoop final pending = (final, pending).
Proof.
  intros Hb Hl Hp. simpl. split; [|split; [|split]].
  - rewrite (drainLines_line s l r Hb Hl), Hp, eqb_refl. reflexivity.
  - reflexivity.
  - reflexivity.
  - destruct pending; reflexivity.
Qed.

Lemma tryBlock_no_end (s s' : Stream) (p : jstr) :
  tryBlock s p = Normal s' ->
  streamDone s' = streamDone s /\
  (~ In StreamEnd (trace s) -> ~ In StreamEnd (trace s')).
Proof.
  unfold tryBlock. destruct (contentText p) as [[text|]|]; [| |discriminate];
    intros H; injection H as <-; simpl; [|tauto].
  split; [reflexivity|]. intros Hn Hin.
  apply in_app_or in Hin as [Hin|[Hin|[]]]; [tauto | discriminate].
Qed.

Lemma drainLines_endsOnly (s : Stream) :
  streamDone s = false -> ~ In StreamEnd (trace s) -> endsOnly (drainLines s).
Proof.
  induction s as [s Hs | s l r Hb Hl IH] using by_lines; intros Hd Hn.
  - rewrite drainLines_idle by exact Hs. unfold endsOnly. rewrite Hd. exact Hn.
  - rewrite (drainLines_line s l r Hb Hl).
    destruct (payload (chomp l)) as [p|].
    + destruct (eqb p (lit "[DONE]")).
      * unfold endsOnly. simpl. exists (trace s). auto.
      * destruct (throws p) eqn:T.
        -- rewrite tryBlock_throws by exact T.
           unfold endsOnly. simpl. rewrite Hd. exact Hn.
        -- destruct (tryBlock_completes (setTextBuffer s r) p T)
             as (s' & E & Hs' & _).
           rewrite E. destruct (tryBlock_no_end _ _ _ E) as [Hd' Hn'].
           apply IH; [rewrite Hs'; simpl; lia | rewrite Hd'; exact Hd | auto].
    + apply IH; [simpl; lia | exact Hd | exact Hn].
Qed.

(** In every run StreamEnd is emitted at most once and nothing is
    emitted after it. *)
Lemma readLoop_endsOnly (pending : list (list byte)) (s : Stream) :
  endsOnly s -> endsOnly (fst (readLoop s pending)).
Proof.
  revert s. induction pending as [|value pending IH]; intros s H; simpl.
  - destruct (streamDone s); exact H.
  - destruct (streamDone s) eqn:Hd; [exact H|]. apply IH.
    rewrite receive_decoded. apply drainLines_endsOnly; [exact Hd|].
    unfold endsOnly in H. rewrite Hd in H. exact H.
Qed.

(** The read loop leaves fragments unread only when the stream is
    done. *)
Lemma readLoop_reads_all (pending : list (list byte)) (s : Stream) :
  streamDone (fst (readLoop s pending)) = false -> snd (readLoop s pending) = [].
Proof.
  revert s. induction pending as [|value pending IH]; intros s; simpl.
  - destruct (streamDone s); reflexivity.
  - destruct (streamDone s) eqn:Hd; [simpl; congruence|]. apply IH.
Qed.

(** C4. When a response completes (the body closes, or the sentinel
    arrived before the reader failed), the last message is the assistant
    message whose content is the content deltas put together in the order
    they arrived. *)
Theorem reply_is_concatenated_deltas (c : Chat.t) (b : Body) :
  eqb (trim (Chat.input c)) [] = false ->
  Chat.loading c = false ->
  ending b = Closed \/
  streamDone
    (fst (readLoop
            (openStream
               (Chat.messages c ++ [{| role := user; content := Chat.input c |}]))
            (fragments b))) = true ->
  let result := sendMessage c (Responds true (Some b)) in
  Chat.messages (fst result) =
  Chat.messages c ++
  [{| role := user; content := Chat.input c |};
   {| role := assistant; content := concat (deltaTexts (snd result)) |}].
Proof.
  intros Hi Hl Hc. unfold sendMessage. rewrite Hi, Hl. simpl.
  set (sent := Chat.messages c ++ [{| role := user; content := Chat.input c |}]) in *.
  destruct (inSync_readLoop sent (fragments b)) as (Hm & Ha & _).
  destruct (readLoop (openStream sent) (fragments b)) as [s unread].
  simpl in *.
  assert (E : messages s =
              Chat.messages c ++
              [{| role := user; content := Chat.input c |};
               {| role := assistant; content := concat (deltaTexts (trace s)) |}]).
  { rewrite Hm, <- Ha. unfold sent. rewrite <- app_assoc. reflexivity. }
  destruct (streamDone s); [exact E|].
  destruct Hc as [->|]; [exact E | discriminate].
Qed.

(** C6. A line that starts with a colon, or is blank once trimmed (a
    lone carriage return included), only leaves the buffer: the turn
    changes nothing else, and the loop goes on exactly as it would on the
    lines behind it. *)
Theorem skipped_line_is_transparent (s : Stream) (l r : jstr) :
  textBuffer s = l ++ LF :: r -> ~ In LF l ->
  startsWith l (lit ":") = true \/ trim l = [] ->
  lineTurn s (indexOf LF (textBuffer s)) = Again (setTextBuffer s r) /\
  drainLines s = drainLines (setTextBuffer s r).
Proof.
  intros Hb Hl Hs.
  assert (Hp : payload (chomp l) = None).
  { unfold payload. destruct Hs as [Hs|Hs].
    - rewrite (startsWith_colon_chomp l Hs). reflexivity.
    - rewrite (trim_chomp l), Hs, orb_true_r. reflexivity. }
  rewrite (lineTurn_line s l r Hb Hl), (drainLines_line s l r Hb Hl), Hp. auto.
Qed.

(** C7. While a response streams, the last assistant message only
    grows.  Whenever the renderer runs the queued updaters (in order,
    each at or after the call that queued it, finding in
    [assistantContent] the deltas appended by then), every update
    returns the list it received with the messages before the last
    unchanged and, last, the assistant message whose previous content is
    a prefix of its new content.  The variable holds the deltas put
    together, and an update that runs after the last delta leaves the
    list the loop ends with. *)
Theorem last_message_grows (base : list Message)
    (pending : list (list byte)) (reads : list nat) :
  let s := fst (readLoop (openStream base) pending) in
  let texts := deltaTexts (trace s) in
  scheduled 1 0 (length texts) reads ->
  let lists := runUpdaters texts reads (messages (openStream base)) in
  assistantContent s = accumulated texts (length texts) /\
  growing (messages (openStream base)) lists /\
  (forall earlier, reads = earlier ++ [length texts] ->
     last lists [] = messages s).
Proof.
  intros s texts H lists.
  destruct (inSync_readLoop base pending) as (Hm & Ha & _).
  fold s in Hm, Ha.
  assert (Hc : assistantContent s = accumulated texts (length texts)).
  { unfold accumulated, texts. rewrite firstn_all. exact Ha. }
  split; [exact Hc|]. split.
  - exact (runUpdaters_growing texts (length texts) base reads 1 0 H).
  - intros earlier E. unfold lists. rewrite E.
    unfold openStream at 1. cbn [messages].
    rewrite runUpdaters_last, Hm, Hc. reflexivity.
Qed.

(** C8. A call sets the loading flag before its request goes out and
    clears it when it ends, and a call made while the flag is set returns
    at the guard.  So, from a component that is not loading, whatever the
    user and the network do: at most one request is in flight, one is in
    flight exactly when the flag is set, and invoking the send action
    then changes nothing (messages, input, flag, requests issued) and
    issues no request. *)
Theorem one_request_at_a_time (c : Chat.t) (actions : list Action) :
  Chat.loading c = false ->
  let a := session c actions in
  (inFlight a <= 1)%nat /\
  (Chat.loading (ui a) = true <-> inFlight a = 1%nat) /\
  (Chat.loading (ui a) = true ->
   act a Send = a /\ forall net, sendMessage (ui a) net = (ui a, [])).
Proof.
  intros Hl. simpl.
  assert (H : oneFlight (session c actions)).
  { apply session_oneFlight. unfold oneFlight. simpl. rewrite Hl.
    reflexivity. }
  unfold oneFlight in H.
  split; [|split].
  - rewrite H. destruct (Chat.loading (ui (session c actions))); lia.
  - rewrite H. destruct (Chat.loading (ui (session c actions)));
      split; congruence.
  - intros L. split.
    + simpl. unfold beginSend. rewrite L, orb_true_r. reflexivity.
    + intros net. rewrite sendMessage_two_steps. unfold beginSend.
      rewrite L, orb_true_r. reflexivity.
Qed.

(** C9, as amended.  Once a data line that does not parse is first in
    the buffer, nothing more is emitted for the rest of the stream: every
    fragment is read, each one finds the line still first (less one
    trailing carriage return per attempt, with the same payload), pushes
    it back and stops, and all that arrives queues up behind it: the
    buffer is that line, the rest and all the text decoded since. *)
Theorem blocked_stream_stays_blocked (pending : list (list byte))
    (s : Stream) (l r jsonStr : jstr) :
  streamDone s = false ->
  textBuffer s = l ++ LF :: r -> ~ In LF l ->
  payload (chomp l) = Some jsonStr ->
  eqb jsonStr (lit "[DONE]") = false ->
  JSON_parse jsonStr = None ->
  let final := fst (readLoop s pending) in
  snd (readLoop s pending) = [] /\
  outcome final = outcome s /\
  textBuffer final =
    Nat.iter (length pending) chomp l ++ LF :: r ++
    snd (TextDecoder.decode (decoder s) (concat pending)) /\
  payload (chomp (Nat.iter (length pending) chomp l)) = Some jsonStr.
Proof.
  intros Hd Hb Hl Hp He Hj. apply parse_failure_throws in Hj. simpl.
  revert s l r Hd Hb Hl Hp.
  induction pending as [|value pending IH]; intros s l r Hd Hb Hl Hp.
  - simpl. rewrite Hd. simpl. rewrite app_nil_r. auto.
  - cbn [readLoop]. rewrite Hd.
    assert (Hm : malformed l) by (exists jsonStr; auto).
    destruct (TextDecoder.decode (decoder s) value) as [d text] eqn:Ev.
    assert (Hr : receive s value =
                 setDecoder (setTextBuffer s (chomp l ++ LF :: r ++ text)) d).
    { rewrite receive_decoded, Ev. simpl fst; simpl snd.
      rewrite drainLines_setDecoder.
      rewrite (drainLines_malformed (appendText s text) l (r ++ text));
        [reflexivity| |exact Hl|exact Hm].
      simpl. rewrite Hb, <- app_assoc. reflexivity. }
    rewrite Hr.
    destruct (IH (setDecoder (setTextBuffer s (chomp l ++ LF :: r ++ text)) d)
                 (chomp l) (r ++ text))
      as (I1 & I2 & I3 & I4);
      [exact Hd | reflexivity | apply chomp_no_newline, Hl
       | apply payload_chomp, Hp |].
    split; [exact I1|]. split; [exact I2|].
    simpl concat. rewrite decode_app, Ev.
    simpl decoder in I3.
    destruct (TextDecoder.decode d (concat pending)) as [d' text'].
    simpl length. rewrite Nat.iter_succ_r.
    split; [|exact I4]. rewrite I3. simpl snd.
    rewrite <- !app_assoc. reflexivity.
Qed.

(** C10. An update of the message list during streaming writes the
    last index only: the length and the messages at all earlier indices
    are those of the list it received.  This holds of the updater on any
    list, and so of every update along a response. *)
Theorem updates_touch_only_last :
  (forall text prev, frame prev (replaceLast text prev)) /\
  (forall base pending,
     Forall framed (trace (fst (readLoop (openStream base) pending)))).
Proof.
  split; [intros; apply replaceLast_frame|].
  intros base pending.
  destruct (inSync_readLoop base pending) as (_ & _ & _ & _ & Hf). exact Hf.
Qed.

End Statements.
(** ** The two ways a request fails *)

Section Failure.
Context {engine : Engine}.

(** A response that is not [ok] (or a rejected [fetch]) throws before
    the placeholder is appended, so the message the [catch] block drops
    is the one the user has just sent. *)
Lemma failure_before_stream (c : Chat.t) (body : option Body) :
  eqb (trim (Chat.input c)) [] = false -> Chat.loading c = false ->
  sendMessage c (Responds false body) =
  ({| Chat.messages := Chat.messages c;
      Chat.input := [];
      Chat.loading := false;
      Chat.toasts := S (Chat.toasts c);
      Chat.requests :=
        Chat.requests c ++
        [Chat.messages c ++ [{| role := user; content := Chat.input c |}]] |},
   []).
Proof.
  intros Hi Hl. unfold sendMessage, failed. rewrite Hi, Hl. simpl.
  rewrite slice_drop_last, removelast_last. reflexivity.
Qed.

(** A reader that fails after the placeholder was appended: the
    [catch] block drops the assistant message, whatever it had
    accumulated, and the user's message stays. *)
Lemma failure_during_stream (c : Chat.t) (b : Body) :
  eqb (trim (Chat.input c)) [] = false -> Chat.loading c = false ->
  ending b = Aborted ->
  streamDone
    (fst (readLoop
            (openStream
               (Chat.messages c ++ [{| role := user; content := Chat.input c |}]))
            (fragments b))) = false ->
  fst (sendMessage c (Responds true (Some b))) =
  {| Chat.messages :=
       Chat.messages c ++ [{| role := user; content := Chat.input c |}];
     Chat.input := [];
     Chat.loading := false;
     Chat.toasts := S (Chat.toasts c);
     Chat.requests :=
       Chat.requests c ++
       [Chat.messages c ++ [{| role := user; content := Chat.input c |}]] |}.
Proof.
  intros Hi Hl He Hd. unfold sendMessage. rewrite Hi, Hl. simpl.
  set (sent := Chat.messages c ++ [{| role := user; content := Chat.input c |}]) in *.
  destruct (inSync_readLoop sent (fragments b)) as (Hm & _).
  destruct (readLoop (openStream sent) (fragments b)) as [s unread].
  simpl in *. rewrite Hd, He. simpl. unfold failed. simpl.
  rewrite Hm, slice_drop_last, removelast_last. reflexivity.
Qed.

End Failure.

(** C5, on a response with status 500.  The component showed the
    greeting and the user sent a question; after the failure one toast
    was raised and no delta was produced, but no assistant message was
    there to remove: the message removed is the user's question, and the
    list is back to the greeting alone. *)
Example failed_response_drops_user_message :
  @sendMessage Reference.engine asking (Responds false None) =
  ({| Chat.messages := [hello];
      Chat.input := [];
      Chat.loading := false;
      Chat.toasts := 1;
      Chat.requests := [[hello; {| role := user; content := lit "hi" |}]] |},
   []).
Proof. reflexivity. Qed.

(* ================================================================== *)
(** * Worked examples *)
(* ================================================================== *)

(** The example of the specification: two deltas, then the sentinel. *)
Example hello_stream :
  let s := fst (@readLoop Reference.engine (openStream [])
                  [helBytes; loBytes ++ doneBytes]) in
  deltaTexts (trace s) = [lit "Hel"; lit "lo"] /\
  messages s = [{| role := assistant; content := lit "Hello" |}] /\
  streamDone s = true.
Proof. vm_compute. auto. Qed.

(** The same events on lines that end in carriage return and newline,
    with a blank line and a comment between them. *)
Example crlf_stream :
  let ending := [x0d; x0a] in
  let s := fst (@readLoop Reference.engine (openStream [])
                  [bytesText "data: {'choices':[{'delta':{'content':'Hel'}}]}"
                   ++ ending ++ ending ++ bytesText ": ping" ++ ending;
                   bytesText "data: {'choices':[{'delta':{'content':'lo'}}]}"
                   ++ ending ++ bytesText "data: [DONE]" ++ ending]) in
  deltaTexts (trace s) = [lit "Hel"; lit "lo"] /\
  messages s = [{| role := assistant; content := lit "Hello" |}] /\
  streamDone s = true.
Proof. vm_compute. auto. Qed.

(** The malformed line of the specification's example: it is never
    completed by what arrives later, and the events behind it are never
    reached. *)
Example corrupt_line_blocks :
  let s := fst (@readLoop Reference.engine (openStream [])
                  [bytesLine "data: {bad json";
                   bytesLine "data: {bad json appended}";
                   helBytes; doneBytes]) in
  trace s = [] /\
  messages s = [{| role := assistant; content := [] |}] /\
  streamDone s = false.
Proof. vm_compute. auto. Qed.

(** A character of three bytes (U+20AC) cut after its first byte. *)
Example split_character :
  let whole := [xe2; x82; xac] in
  snd (TextDecoder.decode
         (fst (TextDecoder.decode TextDecoder.fresh [xe2])) [x82; xac]) =
  snd (TextDecoder.decode TextDecoder.fresh whole) /\
  snd (TextDecoder.decode TextDecoder.fresh whole) = [0x20AC].
Proof. vm_compute. auto. Qed.

Lemma malformed_line_pushed_back_witness :
  let s := pendingStream (lit "data: {bad" ++ LF :: lit "data: [DONE]" ++ [LF]) in
  Reference.parse (lit "{bad") = None /\
  @drainLines Reference.engine s = s.
Proof.
  split; [reflexivity|].
  exact (proj1 (proj2
    (@malformed_line_pushed_back Reference.engine
       (pendingStream (lit "data: {bad" ++ LF :: lit "data: [DONE]" ++ [LF]))
       (lit "data: {bad") (lit "data: [DONE]" ++ [LF]) (lit "{bad")
       eq_refl ltac:(no_newline) eq_refl eq_refl eq_refl))).
Defined.

Lemma done_ends_stream_witness :
  let s := pendingStream (lit "data: [DONE]" ++ LF :: lit "data: 1" ++ [LF]) in
  let final := ended (pendingStream (lit "data: 1" ++ [LF])) in
  payload (chomp (lit "data: [DONE]")) = Some (lit "[DONE]") /\
  @drainLines Reference.engine s = final /\
  @readLoop Reference.engine final [helBytes] = (final, [helBytes]).
Proof.
  split; [reflexivity|].
  pose proof (@done_ends_stream Reference.engine
       (pendingStream (lit "data: [DONE]" ++ LF :: lit "data: 1" ++ [LF]))
       (lit "data: [DONE]") (lit "data: 1" ++ [LF]) [helBytes]
       eq_refl ltac:(no_newline) eq_refl) as (H1 & _ & _ & H4).
  split; [exact H1 | exact H4].
Defined.

Lemma reply_is_concatenated_deltas_witness :
  Chat.messages
    (fst (@sendMessage Reference.engine asking
            (Responds true
               (Some {| fragments := [helBytes; loBytes ++ doneBytes];
                        ending := Closed |})))) =
  [hello; {| role := user; content := lit "hi" |};
   {| role := assistant; content := lit "Hello" |}].
Proof.
  pose proof (@reply_is_concatenated_deltas Reference.engine asking
                {| fragments := [helBytes; loBytes ++ doneBytes];
                   ending := Closed |}
                eq_refl eq_refl (or_introl eq_refl)) as H.
  cbv zeta in H. etransitivity; [exact H|].
  vm_compute. reflexivity.
Defined.

Lemma skipped_line_is_transparent_witness :
  let s := pendingStream ([CR] ++ LF :: lit "data: [DONE]" ++ [LF]) in
  trim [CR] = [] /\
  @drainLines Reference.engine s =
  @drainLines Reference.engine (pendingStream (lit "data: [DONE]" ++ [LF])).
Proof.
  split; [reflexivity|].
  exact (proj2
    (@skipped_line_is_transparent Reference.engine
       (pendingStream ([CR] ++ LF :: lit "data: [DONE]" ++ [LF]))
       [CR] (lit "data: [DONE]" ++ [LF])
       eq_refl ltac:(no_newline) (or_intror eq_refl))).
Defined.

Lemma last_message_grows_witness :
  let s := fst (@readLoop Reference.engine (openStream [hello])
                  [helBytes; loBytes]) in
  let lists :=
    runUpdaters (deltaTexts (trace s)) [2; 2]%nat
      (messages (openStream [hello])) in
  lists = [[hello; {| role := assistant; content := lit "Hello" |}];
           [hello; {| role := assistant; content := lit "Hello" |}]] /\
  growing (messages (openStream [hello])) lists.
Proof.
  split; [vm_compute; reflexivity|].
  exact (proj1 (proj2
    (@last_message_grows Reference.engine [hello] [helBytes; loBytes]
       [2; 2]%nat
       ltac:(vm_compute; repeat split; lia)))).
Defined.

Lemma one_request_at_a_time_witness :
  let a :=
    @session Reference.engine asking [Send; Typing (lit "more"); Send] in
  Chat.loading asking = false /\
  ui a = waiting /\
  (inFlight a <= 1)%nat.
Proof.
  split; [reflexivity|]. split; [vm_compute; reflexivity|].
  exact (proj1
    (@one_request_at_a_time Reference.engine asking
       [Send; Typing (lit "more"); Send] eq_refl)).
Defined.

Lemma blocked_stream_stays_blocked_witness :
  Reference.parse (lit "{bad") = None /\
  outcome (fst (@readLoop Reference.engine
                  (pendingStream (lit "data: {bad" ++ [LF]))
                  [helBytes; doneBytes])) =
  outcome (pendingStream (lit "data: {bad" ++ [LF])).
Proof.
  split; [reflexivity|].
  exact (proj1 (proj2
    (@blocked_stream_stays_blocked Reference.engine
       [helBytes; doneBytes]
       (pendingStream (lit "data: {bad" ++ [LF]))
       (lit "data: {bad") [] (lit "{bad")
       eq_refl eq_refl ltac:(no_newline) eq_refl eq_refl eq_refl))).
Defined.

(** ** Where the wording of the specification goes too far *)

(** C2, as worded: the original line goes back.  A data line that ends
    in a carriage return and does not parse goes back without its
    carriage return, so the buffer is not the one the loop found. *)
Lemma pushed_back_line_loses_carriage_return :
  let l := lit "data: {bad" ++ [CR] in
  let s := pendingStream (l ++ [LF]) in
  ~ In LF l /\
  payload (chomp l) = Some (lit "{bad") /\
  Reference.parse (lit "{bad") = None /\
  textBuffer (@drainLines Reference.engine s) = lit "data: {bad" ++ [LF] /\
  textBuffer (@drainLines Reference.engine s) <> l ++ [LF] /\
  @drainLines Reference.engine s <> s.
Proof.
  cbv zeta. split; [no_newline|]. vm_compute.
  repeat split; try reflexivity; intros H; discriminate H.
Qed.

(** C9, as worded: every fragment tries the same line again and the
    buffer grows with it.  Behind a line that ends in three carriage
    returns, a fragment of one character leaves the buffer as long as it
    was and an empty fragment leaves it shorter, and each finds a line
    one carriage return shorter than the fragment before it. *)
Lemma blocked_buffer_need_not_grow :
  let l := lit "data: {bad" ++ [CR; CR; CR] in
  let s := pendingStream (l ++ [LF]) in
  let s1 := @receive Reference.engine s [x78] in
  let s2 := @receive Reference.engine s1 [] in
  ~ In LF l /\
  payload (chomp l) = Some (lit "{bad") /\
  Reference.parse (lit "{bad") = None /\
  streamDone s = false /\
  length (textBuffer s) = 14%nat /\
  textBuffer s1 = lit "data: {bad" ++ [CR; CR; LF] ++ lit "x" /\
  length (textBuffer s1) = 14%nat /\
  textBuffer s2 = lit "data: {bad" ++ [CR; LF] ++ lit "x" /\
  length (textBuffer s2) = 13%nat.
Proof.
  cbv zeta. split; [no_newline|]. vm_compute. repeat split; reflexivity.
Qed.

(* ================================================================== *)
(** * Further properties *)
(* ================================================================== *)

(** ** Where a newline can come from *)

Lemma lor_shift_add (cp x : Z) :
  0 <= x < 64 -> Z.lor (Z.shiftl cp 6) x = cp * 64 + x.
Proof.
  intros Hx.
  assert (Hz : Z.land (Z.shiftl cp 6) x = 0).
  { apply Z.bits_inj'. intros n Hn. rewrite Z.land_spec, Z.bits_0.
    destruct (Z.lt_ge_cases n 6) as [Hlt|Hge].
    - rewrite Z.shiftl_spec_low by exact Hlt. reflexivity.
    - destruct (Z.eq_dec x 0) as [->|Hne].
      + rewrite Z.bits_0. apply andb_false_r.
      + rewrite (Z.bits_above_log2 x n); [apply andb_false_r | lia |].
        apply Z.lt_le_trans with 6; [|exact Hge].
        apply Z.log2_lt_pow2; lia. }
  pose proof (Z.add_lor_land (Z.shiftl cp 6) x) as H.
  rewrite Hz, Z.add_0_r in H. rewrite H.
  rewrite Z.shiftl_mul_pow2 by lia. reflexivity.
Qed.

Lemma land_low (b n : Z) : 0 <= n -> Z.land b (2 ^ n - 1) = b mod 2 ^ n.
Proof.
  intros Hn. rewrite <- Z.land_ones by exact Hn. f_equal.
  rewrite Z.ones_equiv. lia.
Qed.

Lemma byte_range (b : byte) : 0 <= Z.of_N (Byte.to_N b) < 256.
Proof. pose proof (Byte.to_N_bounded b). lia. Qed.

Lemma byte_newline (b : byte) : Z.of_N (Byte.to_N b) = 10 -> b = x0a.
Proof.
  intros H. assert (E : Byte.to_N b = 10%N) by lia.
  pose proof (Byte.of_to_N b) as Hb. rewrite E in Hb.
  simpl in Hb. congruence.
Qed.

Lemma utf16_no_newline (cp : Z) : 128 <= cp -> ~ In LF (TextDecoder.utf16 cp).
Proof.
  intros H. unfold TextDecoder.utf16, LF.
  destruct (Z.ltb_spec cp 0x10000); cbn [In].
  - intros [E|[]]. lia.
  - assert (0 <= Z.shiftr (cp - 0x10000) 10) by (apply Z.shiftr_nonneg; lia).
    assert (0 <= Z.land (cp - 0x10000) 0x3FF) by (apply Z.land_nonneg; lia).
    intros [E|[E|[]]]; lia.
Qed.

Lemma lead_beyondAscii (d : TextDecoder.t) (b : Z) :
  0 <= b < 256 ->
  TextDecoder.upperBoundary d <= 0xBF ->
  TextDecoder.bytesNeeded d = 0 ->
  TextDecoder.bytesSeen d = 0 ->
  beyondAscii (fst (TextDecoder.lead d b)) /\
  (b <> 10 -> quiet (snd (TextDecoder.lead d b))).
Proof.
  intros Hb Hu Hn Hs. unfold TextDecoder.lead, beyondAscii.
  change 0x1F with (2 ^ 5 - 1). change 0xF with (2 ^ 4 - 1).
  change 0x7 with (2 ^ 3 - 1). rewrite !land_low by lia.
  change (2 ^ 5) with 32. change (2 ^ 4) with 16. change (2 ^ 3) with 8.
  destruct (Z.leb_spec b 0x7F).
  { decoder_fields. simpl quiet. split; lia. }
  destruct ((0xC2 <=? b) && (b <=? 0xDF)) eqn:E2.
  { apply andb_true_iff in E2 as [?%Z.leb_le ?%Z.leb_le].
    decoder_fields. rewrite Hs. change (64 ^ (1 - 0)) with 64. simpl quiet.
    split; [Z.div_mod_to_equations; lia | tauto]. }
  destruct ((0xE0 <=? b) && (b <=? 0xEF)) eqn:E3.
  { apply andb_true_iff in E3 as [?%Z.leb_le ?%Z.leb_le].
    decoder_fields. rewrite Hs. change (64 ^ (2 - 0)) with 4096. simpl quiet.
    destruct (Z.eqb_spec b 0xE0); destruct (Z.eqb_spec b 0xED);
      (split; [Z.div_mod_to_equations; lia | tauto]). }
  destruct ((0xF0 <=? b) && (b <=? 0xF4)) eqn:E4.
  { apply andb_true_iff in E4 as [?%Z.leb_le ?%Z.leb_le].
    decoder_fields. rewrite Hs. change (64 ^ (3 - 0)) with 262144. simpl quiet.
    destruct (Z.eqb_spec b 0xF0); destruct (Z.eqb_spec b 0xF4);
      (split; [Z.div_mod_to_equations; lia | tauto]). }
  decoder_fields. simpl quiet. split; [lia | tauto].
Qed.



Lemma handler_beyondAscii (d : TextDecoder.t) (b : Z) :
  0 <= b < 256 -> beyondAscii d ->
  beyondAscii (fst (TextDecoder.handler d b)) /\
  (b <> 10 -> Forall quiet (snd (TextDecoder.handler d b))).
Proof.
  intros Hb [Hu Hd]. unfold TextDecoder.handler.
  destruct (Z.eqb_spec (TextDecoder.bytesNeeded d) 0) as [Hn|Hn].
  - assert (Hs : TextDecoder.bytesSeen d = 0) by lia.
    destruct (lead_beyondAscii d b Hb Hu Hn Hs) as [H1 H2].
    destruct (TextDecoder.lead d b) as [d' r]. simpl in *.
    split; [exact H1 | intros Hne; constructor; auto].
  - destruct Hd as [[Hz _]|(Hseen & Hneed & Hcp & Hgrow)]; [contradiction|].
    destruct ((TextDecoder.lowerBoundary d <=? b) && (b <=? TextDecoder.upperBoundary d))
      eqn:Er; cbn [negb].
    + apply andb_true_iff in Er as [Hlo%Z.leb_le Hhi%Z.leb_le].
      change 0x3F with (2 ^ 6 - 1). rewrite land_low by lia.
      change (2 ^ 6) with 64.
      rewrite lor_shift_add by (apply Z.mod_pos_bound; lia).
      destruct d as [cp seen needed lo hi bom]. decoder_fields.
      cbn [TextDecoder.codePoint TextDecoder.bytesSeen TextDecoder.bytesNeeded
           TextDecoder.lowerBoundary TextDecoder.upperBoundary] in *.
      assert (Hc : needed = 1 \/ needed = 2 \/ needed = 3) by lia.
      assert (Hc' : seen = 0 \/ seen = 1 \/ seen = 2) by lia.
      destruct (Z.eqb_spec (seen + 1) needed) as [E|E]; cbn [negb];
        unfold beyondAscii; decoder_fields;
        destruct Hc as [->|[->| ->]]; destruct Hc' as [->|[->| ->]];
        try lia; powers;
        (split; [Z.div_mod_to_equations; lia
                | intros _; repeat constructor; simpl quiet;
                  Z.div_mod_to_equations; lia]).
    + destruct (lead_beyondAscii (TextDecoder.mk 0 0 0 0x80 0xBF (TextDecoder.bomSeen d))
                  b Hb) as [H1 H2]; try (simpl; lia).
      destruct (TextDecoder.lead _ b) as [d' r]. simpl in *.
      split; [exact H1 | intros Hne; repeat constructor; auto].
Qed.

Lemma serialize_quiet (d : TextDecoder.t) (r : TextDecoder.Result) :
  (beyondAscii d -> beyondAscii (fst (TextDecoder.serialize d r))) /\
  (quiet r -> ~ In LF (snd (TextDecoder.serialize d r))).
Proof.
  assert (Hs : forall cp, 128 <= cp \/ (0 <= cp < 128 /\ cp <> 10) ->
             ~ In LF (if cp =? 0xFEFF then [] else TextDecoder.utf16 cp) /\
             ~ In LF (TextDecoder.utf16 cp)).
  { intros cp [H|[H1 H2]].
    - destruct (cp =? 0xFEFF); auto using utf16_no_newline, in_nil.
    - unfold TextDecoder.utf16.
      destruct (Z.ltb_spec cp 0x10000); [|lia].
      destruct (cp =? 0xFEFF); unfold LF; simpl; split; tauto || (intros [E|[]]; lia). }
  unfold TextDecoder.serialize. destruct r as [| |cp]; simpl quiet.
  - simpl. tauto.
  - destruct (TextDecoder.bomSeen d); simpl; split; try tauto;
      intros _; unfold LF; intros [E|[]]; discriminate.
  - destruct (TextDecoder.bomSeen d); simpl; split; try tauto;
      intros H; apply (Hs cp H).
Qed.

Lemma serializeAll_quiet (rs : list TextDecoder.Result) (d : TextDecoder.t) :
  (beyondAscii d -> beyondAscii (fst (TextDecoder.serializeAll d rs))) /\
  (Forall quiet rs -> ~ In LF (snd (TextDecoder.serializeAll d rs))).
Proof.
  revert d. induction rs as [|r rs IH]; intros d; simpl; [tauto|].
  destruct (serialize_quiet d r) as [H1 H2].
  destruct (TextDecoder.serialize d r) as [d1 o1]. simpl in *.
  destruct (IH d1) as [H3 H4].
  destruct (TextDecoder.serializeAll d1 rs) as [d2 o2]. simpl in *.
  split; [auto|]. intros Hq. inversion Hq; subst.
  intros Hin. apply in_app_or in Hin as [Hin|Hin]; [apply H2 in Hin | apply H4 in Hin]; auto.
Qed.

Lemma decodeByte_quiet (d : TextDecoder.t) (b : byte) :
  beyondAscii d ->
  beyondAscii (fst (TextDecoder.decodeByte d b)) /\
  (b <> x0a -> ~ In LF (snd (TextDecoder.decodeByte d b))).
Proof.
  intros Hd. unfold TextDecoder.decodeByte.
  destruct (handler_beyondAscii d _ (byte_range b) Hd) as [H1 H2].
  destruct (TextDecoder.handler d (Z.of_N (to_N b))) as [d1 rs]. simpl in *.
  destruct (serializeAll_quiet rs d1) as [H3 H4].
  split; [auto|]. intros Hne. apply H4, H2.
  intros E. apply Hne, byte_newline, E.
Qed.

(** The decoder's invariant, and the origin of newlines: a newline in
    the decoded text comes from a newline byte. *)
Lemma decode_quiet (value : list byte) (d : TextDecoder.t) :
  beyondAscii d ->
  beyondAscii (fst (TextDecoder.decode d value)) /\
  (~ In x0a value -> ~ In LF (snd (TextDecoder.decode d value))).
Proof.
  revert d. induction value as [|b value IH]; intros d Hd; simpl; [tauto|].
  destruct (decodeByte_quiet d b Hd) as [H1 H2].
  destruct (TextDecoder.decodeByte d b) as [d1 o1]. simpl in *.
  destruct (IH d1 H1) as [H3 H4].
  destruct (TextDecoder.decode d1 value) as [d2 o2]. simpl in *.
  split; [exact H3|]. intros Hn Hin.
  apply in_app_or in Hin as [Hin|Hin].
  - apply H2 in Hin; auto.
  - apply H4 in Hin; auto.
Qed.

Lemma beyondAscii_fresh : beyondAscii TextDecoder.fresh.
Proof. unfold beyondAscii. simpl. lia. Qed.

(** ** The loop at rest *)

Section Rest.
Context {engine : Engine}.

Lemma atRest_open (base : list Message) : atRest (openStream base).
Proof. right. left. simpl. tauto. Qed.

Lemma drainLines_atRest (s : Stream) : atRest (drainLines s).
Proof.
  destruct (drainLines_append [] s) as [(H & _)|[[H|H] _]];
    unfold atRest; auto.
Qed.

Lemma receive_atRest (s : Stream) (value : list byte) :
  atRest (receive s value).
Proof. rewrite receive_decoded. apply drainLines_atRest. Qed.

Lemma receive_beyondAscii (s : Stream) (value : list byte) :
  beyondAscii (decoder s) -> beyondAscii (decoder (receive s value)).
Proof.
  intros H. rewrite receive_decoded, drainLines_decoder. simpl.
  apply decode_quiet, H.
Qed.

(** A fragment without a newline byte changes nothing a caller can
    see. *)
Lemma receive_without_newline (s : Stream) (value : list byte) :
  beyondAscii (decoder s) -> atRest s -> streamDone s = false ->
  ~ In x0a value ->
  outcome (receive s value) = outcome s.
Proof.
  intros Hd [Hr|[Hr|Hr]] Hs Hv; [congruence| |apply receive_blocked, Hr].
  rewrite receive_decoded, drainLines_setDecoder, drainLines_idle; [reflexivity|].
  simpl. intros Hin. apply in_app_or in Hin as [Hin|Hin]; [tauto|].
  revert Hin. apply decode_quiet; assumption.
Qed.

End Rest.
(** ** The read loop *)

Section MoreLoop.
Context {engine : Engine}.

(** X1. A last fragment without a newline byte changes nothing a
    caller can see: the events, the messages, the accumulated content and
    the done flag are those of the stream without it.  The text of a line
    that is never terminated is never processed. *)
Theorem unterminated_tail_is_invisible (base : list Message)
    (frags : list (list byte)) (tail : list byte) :
  ~ In x0a tail ->
  outcome (fst (readLoop (openStream base) (frags ++ [tail]))) =
  outcome (fst (readLoop (openStream base) frags)).
Proof.
  intros Ht.
  assert (H : forall s, beyondAscii (decoder s) -> atRest s ->
            outcome (fst (readLoop s (frags ++ [tail]))) =
            outcome (fst (readLoop s frags))).
  { induction frags as [|value frags IH]; intros s Hd Hr; simpl.
    - destruct (streamDone s) eqn:Hs; [reflexivity|]. simpl.
      destruct (streamDone (receive s tail)); simpl;
        apply receive_without_newline; assumption.
    - destruct (streamDone s); [reflexivity|].
      apply IH; [apply receive_beyondAscii, Hd | apply receive_atRest]. }
  apply H; [apply beyondAscii_fresh | apply atRest_open].
Qed.

(** The read loop over two runs of fragments is the read loop over the
    first, then over the second unless the stream is done. *)
Lemma readLoop_app (a b : list (list byte)) (s : Stream) :
  readLoop s (a ++ b) =
  if streamDone (fst (readLoop s a))
  then (fst (readLoop s a), snd (readLoop s a) ++ b)
  else readLoop (fst (readLoop s a)) b.
Proof.
  revert s. induction a as [|value a IH]; intros s; simpl.
  - destruct (streamDone s) eqn:Hs; simpl; rewrite ?Hs; [|reflexivity].
    destruct b; simpl; rewrite Hs; reflexivity.
  - destruct (streamDone s) eqn:Hs; simpl; rewrite ?Hs; [reflexivity|].
    apply IH.
Qed.

(** X2. In every run from an opened stream, StreamEnd is in the trace
    exactly when the stream is done, then once and as the last event; and
    fragments are left unread only when the stream is done. *)
Theorem stream_end_is_last (base : list Message)
    (pending : list (list byte)) :
  endsOnly (fst (readLoop (openStream base) pending)) /\
  (streamDone (fst (readLoop (openStream base) pending)) = true \/
   snd (readLoop (openStream base) pending) = []).
Proof.
  split; [apply readLoop_endsOnly; unfold endsOnly; simpl; tauto|].
  destruct (streamDone (fst (readLoop (openStream base) pending))) eqn:E;
    [left; reflexivity | right; apply readLoop_reads_all, E].
Qed.

Lemma startsWith_of_chomp (l p : jstr) :
  startsWith (chomp l) p = true -> startsWith l p = true.
Proof.
  destruct (chomp_cases l) as [[_ ->]|(u & -> & ->)]; [tauto|].
  intros H. apply startsWith_inv in H as [t ->].
  rewrite <- app_assoc. apply startsWith_app.
Qed.

(** X4. A line that does not start with [data: ] (another field of
    the event stream, or [data:] without the space) only leaves the
    buffer: no event, and the loop goes on with the lines behind it. *)
Theorem non_data_line_is_skipped (s : Stream) (l r : jstr) :
  textBuffer s = l ++ LF :: r -> ~ In LF l ->
  startsWith l (lit "data: ") = false ->
  lineTurn s (indexOf LF (textBuffer s)) = Again (setTextBuffer s r) /\
  drainLines s = drainLines (setTextBuffer s r).
Proof.
  intros Hb Hl Hs.
  assert (Hp : payload (chomp l) = None).
  { unfold payload.
    destruct (startsWith (chomp l) (lit ":") || eqb (trim (chomp l)) []);
      [reflexivity|].
    destruct (startsWith (chomp l) (lit "data: ")) eqn:E; [|reflexivity].
    apply startsWith_of_chomp in E. congruence. }
  rewrite (lineTurn_line s l r Hb Hl), (drainLines_line s l r Hb Hl), Hp. auto.
Qed.

Lemma optional_completes (v : option JSON)
    (access : JSON -> Completion (option JSON)) :
  (forall x, x <> JNull -> exists r, access x = Normal r) ->
  exists r, optional v access = Normal r.
Proof.
  intros H. destruct v as [x|]; simpl; [|eauto].
  destruct x; eauto; apply H; discriminate.
Qed.

Lemma getNamed_completes (name : jstr) (x : JSON) :
  x <> JNull -> exists r, getNamed x name = Normal r.
Proof. destruct x; simpl; eauto. tauto. Qed.

Lemma getIndex0_completes (x : JSON) :
  x <> JNull -> exists r, getIndex0 x = Normal r.
Proof. destruct x; simpl; eauto. tauto. Qed.

(** X5. The property chain of line 90 throws for one parsed value
    only, [null]; on every other value, whatever is missing or of another
    type along the chain, it completes (with [undefined] or with the
    content). *)
Theorem content_chain_throws_only_on_null (parsed : JSON) :
  deltaContent parsed = Throw <-> parsed = JNull.
Proof.
  split; [|intros ->; reflexivity].
  intros H.
  assert (E : parsed = JNull \/ parsed <> JNull)
    by (destruct parsed; auto; right; discriminate).
  destruct E as [E|E]; [exact E|]. exfalso.
  unfold deltaContent in H.
  destruct (getNamed_completes (lit "choices") parsed E) as [choices Hc].
  rewrite Hc in H. simpl in H.
  destruct (optional_completes choices getIndex0 getIndex0_completes)
    as [first Hf].
  rewrite Hf in H. simpl in H.
  destruct (optional_completes first (fun v => getNamed v (lit "delta"))
              (getNamed_completes (lit "delta"))) as [delta Hd].
  rewrite Hd in H. simpl in H.
  destruct (optional_completes delta (fun v => getNamed v (lit "content"))
              (getNamed_completes (lit "content"))) as [content Hk].
  rewrite Hk in H. discriminate.
Qed.

(** X6. A data line whose payload parses but has no truthy content (a
    delta with a role only, an empty choices array, an empty string)
    is consumed without an event, and the loop goes on with the lines
    behind it. *)
Theorem line_without_content_is_consumed (s : Stream) (l r jsonStr : jstr)
    (parsed : JSON) (content : option JSON) :
  textBuffer s = l ++ LF :: r -> ~ In LF l ->
  payload (chomp l) = Some jsonStr ->
  eqb jsonStr (lit "[DONE]") = false ->
  JSON_parse jsonStr = Some parsed ->
  deltaContent parsed = Normal content ->
  ToBoolean content = false ->
  lineTurn s (indexOf LF (textBuffer s)) = Again (setTextBuffer s r) /\
  drainLines s = drainLines (setTextBuffer s r).
Proof.
  intros Hb Hl Hp Hd Hj Hc Hf.
  assert (Ht : tryBlock (setTextBuffer s r) jsonStr = Normal (setTextBuffer s r)).
  { unfold tryBlock, contentText. rewrite Hj, Hc. simpl.
    destruct content; [rewrite Hf|]; reflexivity. }
  rewrite (lineTurn_line s l r Hb Hl), (drainLines_line s l r Hb Hl).
  rewrite Hp, Hd, Ht. auto.
Qed.

(** X7. A data line whose payload is the JSON text [null] parses, but
    reading [choices] of it throws, and the line is treated like one that
    does not parse: it is pushed back, the loop is left, and no fragment
    that follows changes what a caller sees. *)
Theorem null_payload_blocks_stream (s : Stream) (l r jsonStr : jstr)
    (pending : list (list byte)) :
  textBuffer s = l ++ LF :: r -> ~ In LF l ->
  payload (chomp l) = Some jsonStr ->
  eqb jsonStr (lit "[DONE]") = false ->
  JSON_parse jsonStr = Some JNull ->
  drainLines s = setTextBuffer s (chomp l ++ LF :: r) /\
  outcome (fst (readLoop s pending)) = outcome s.
Proof.
  intros Hb Hl Hp Hd Hj.
  assert (Hm : malformed l).
  { exists jsonStr. repeat split; try assumption.
    unfold throws, contentText. rewrite Hj. reflexivity. }
  split; [apply drainLines_malformed; assumption|].
  apply readLoop_blocked. exists l, r. auto.
Qed.

Lemma tryBlock_content (s : Stream) (jsonStr text : jstr) :
  contentText jsonStr = Normal (Some text) ->
  tryBlock s jsonStr =
  Normal {| decoder := decoder s; textBuffer := textBuffer s;
            streamDone := streamDone s;
            assistantContent := assistantContent s ++ text;
            messages := replaceLast (assistantContent s ++ text) (messages s);
            trace := trace s ++
                     [ContentDelta text (messages s)
                        (replaceLast (assistantContent s ++ text) (messages s))] |}.
Proof. unfold tryBlock. intros ->. reflexivity. Qed.

(** X8. When the buffer holds complete lines that each carry a content
    delta, followed by text without a newline, the loop applies all of
    them in order: the accumulated content grows by the deltas put
    together, the trace by one event for each, and the unfinished text is
    what stays in the buffer. *)
Theorem complete_events_are_applied (items : list (jstr * jstr))
    (tail : jstr) (s : Stream) :
  Forall carries items -> ~ In LF tail ->
  let s' := drainLines (setTextBuffer s (linesText items ++ tail)) in
  textBuffer s' = tail /\
  assistantContent s' = assistantContent s ++ concat (map snd items) /\
  deltaTexts (trace s') = deltaTexts (trace s) ++ map snd items /\
  streamDone s' = streamDone s.
Proof.
  intros Hi Ht. simpl. revert s.
  induction Hi as [|[l text] items (Hl & p & Hp & Hd & Hc) _ IH]; intros s.
  - unfold linesText. simpl. rewrite drainLines_idle by exact Ht.
    simpl. rewrite !app_nil_r. auto.
  - assert (Hb : textBuffer (setTextBuffer s (linesText ((l, text) :: items) ++ tail))
                 = l ++ LF :: (linesText items ++ tail)).
    { unfold linesText. simpl. rewrite <- !app_assoc. reflexivity. }
    simpl in Hl, Hp, Hc.
    rewrite (drainLines_line _ l _ Hb Hl), Hp, Hd.
    rewrite (tryBlock_content _ p text Hc).
    cbn [setTextBuffer decoder textBuffer streamDone assistantContent
         messages trace].
    match goal with
    | |- context [drainLines ?x] =>
        destruct (IH x) as (I1 & I2 & I3 & I4);
        change (setTextBuffer x (linesText items ++ tail)) with x in *
    end.
    rewrite I1, I2, I3, I4. simpl.
    rewrite deltaTexts_app, <- !app_assoc. auto.
Qed.

Lemma chomp_snoc (l : jstr) : chomp (l ++ [CR]) = l.
Proof.
  unfold chomp.
  replace (endsWith (l ++ [CR]) [CR]) with true
    by (symmetry; apply endsWith_last; eauto).
  rewrite slice_drop_last. apply removelast_last.
Qed.

Lemma payload_snoc (u : jstr) : payload (u ++ [CR]) = payload u.
Proof.
  destruct (payload (u ++ [CR])) as [p|] eqn:E.
  - apply payload_chomp in E. rewrite chomp_snoc in E. auto.
  - unfold payload in *. rewrite trim_snoc in E by reflexivity.
    assert (Hc : startsWith (u ++ [CR]) (lit ":") = startsWith u (lit ":")).
    { destruct u; reflexivity. }
    rewrite Hc in E.
    destruct (startsWith u (lit ":") || eqb (trim u) []); [reflexivity|].
    destruct (startsWith u (lit "data: ")) eqn:Hd; [|reflexivity].
    apply startsWith_inv in Hd as [t ->].
    rewrite <- app_assoc, startsWith_app in E. discriminate.
Qed.

Lemma payload_chomp_same (l : jstr) : payload (chomp l) = payload l.
Proof.
  destruct (chomp_cases l) as [[_ ->]|(u & -> & ->)]; [reflexivity|].
  symmetry. apply payload_snoc.
Qed.

(** X9. A line that ends in carriage return and newline is processed
    as the same line ending in a newline alone: the loop gives the same
    events, messages, content and flag, and leaves the same decoder.
    When the line has no carriage return of its own before that, the
    whole state is the same, buffer included. *)
Theorem crlf_line_is_lf_line (s : Stream) (l r : jstr) :
  ~ In LF l ->
  let crlf := drainLines (setTextBuffer s (l ++ CR :: LF :: r)) in
  let lf := drainLines (setTextBuffer s (l ++ LF :: r)) in
  outcome crlf = outcome lf /\
  decoder crlf = decoder lf /\
  (endsWith l [CR] = false -> crlf = lf).
Proof.
  intros Hl.
  assert (Hb : textBuffer (setTextBuffer s (l ++ CR :: LF :: r)) =
               (l ++ [CR]) ++ LF :: r) by (simpl; rewrite <- app_assoc; reflexivity).
  assert (Hl' : ~ In LF (l ++ [CR])).
  { intros H. apply in_app_or in H as [H|[H|[]]]; [tauto | discriminate]. }
  cbv zeta.
  rewrite (drainLines_line _ _ _ Hb Hl').
  rewrite (drainLines_line (setTextBuffer s (l ++ LF :: r)) l r eq_refl Hl).
  rewrite chomp_snoc, payload_chomp_same.
  change (setTextBuffer (setTextBuffer s (l ++ CR :: LF :: r)) r)
    with (setTextBuffer s r).
  change (setTextBuffer (setTextBuffer s (l ++ LF :: r)) r)
    with (setTextBuffer s r).
  destruct (payload l) as [p|]; [|auto].
  destruct (eqb p (lit "[DONE]")); [auto|].
  destruct (tryBlock (setTextBuffer s r) p); [auto|].
  split; [reflexivity|]. split; [reflexivity|].
  intros Hc. unfold chomp. rewrite Hc. reflexivity.
Qed.

End MoreLoop.

(** ** The updater *)

Lemma replaceLast_twice (a b : jstr) (prev : list Message) :
  replaceLast a (replaceLast b prev) = replaceLast a prev.
Proof.
  destruct prev as [|x l]; [reflexivity|].
  destruct (exists_last (l := x :: l)) as (base & m & ->); [discriminate|].
  rewrite !replaceLast_snoc. reflexivity.
Qed.

(** X11. Updates applied one after another amount to the last of
    them: whatever contents the earlier ones wrote, the list is the one
    the last update gives on the list before the first. *)
Theorem batched_updates_collapse (contents : list jstr) (final : jstr)
    (prev : list Message) :
  fold_left (fun l text => replaceLast text l) (contents ++ [final]) prev =
  replaceLast final prev.
Proof.
  revert prev. induction contents as [|c contents IH]; intros prev; simpl.
  - reflexivity.
  - rewrite IH. apply replaceLast_twice.
Qed.
(** ** White space *)

Lemma trimStart_blank (s : jstr) :
  Forall (fun c => isWhiteSpace c = true) s -> trimStart s = [].
Proof.
  induction 1 as [|c s Hc _ IH]; simpl; [reflexivity|]. rewrite Hc. exact IH.
Qed.

Lemma trimStart_pad (pad s : jstr) :
  Forall (fun c => isWhiteSpace c = true) pad ->
  trimStart (pad ++ s) = trimStart s.
Proof.
  induction 1 as [|c pad Hc _ IH]; simpl; [reflexivity|]. rewrite Hc. exact IH.
Qed.

Lemma trim_blank (s : jstr) :
  Forall (fun c => isWhiteSpace c = true) s -> trim s = [].
Proof. intros H. unfold trim. rewrite trimStart_blank by exact H. reflexivity. Qed.

(** The sentinel with white space on both sides trims to the sentinel. *)
Lemma trim_padded_done (pad1 pad2 : jstr) :
  Forall (fun c => isWhiteSpace c = true) pad1 ->
  Forall (fun c => isWhiteSpace c = true) pad2 ->
  trim (pad1 ++ lit "[DONE]" ++ pad2) = lit "[DONE]".
Proof.
  intros H1 H2. unfold trim. rewrite trimStart_pad by exact H1.
  change (trimStart (lit "[DONE]" ++ pad2)) with (lit "[DONE]" ++ pad2).
  unfold trimEnd. rewrite rev_app_distr.
  rewrite trimStart_pad by (apply Forall_rev; exact H2).
  reflexivity.
Qed.

Section MoreLines.
Context {engine : Engine}.

(** X10. The sentinel is recognised with any white space after the
    prefix and at the end of the line, a carriage return included: the
    loop ends there, with StreamEnd as the last event and the rest of the
    buffer unprocessed. *)
Theorem padded_sentinel_ends_stream (s : Stream) (pad1 pad2 r : jstr) :
  Forall (fun c => isWhiteSpace c = true) pad1 ->
  Forall (fun c => isWhiteSpace c = true) pad2 ->
  ~ In LF pad1 -> ~ In LF pad2 ->
  drainLines
    (setTextBuffer s (lit "data: " ++ pad1 ++ lit "[DONE]" ++ pad2 ++ LF :: r)) =
  ended (setTextBuffer s r).
Proof.
  intros H1 H2 N1 N2.
  set (l := lit "data: " ++ pad1 ++ lit "[DONE]" ++ pad2).
  assert (Hb : textBuffer
                 (setTextBuffer s
                    (lit "data: " ++ pad1 ++ lit "[DONE]" ++ pad2 ++ LF :: r)) =
               l ++ LF :: r).
  { unfold l. simpl textBuffer. rewrite <- !app_assoc. reflexivity. }
  assert (Hl : ~ In LF l).
  { unfold l. intros H.
    apply in_app_or in H as [H|H]; [vm_compute in H; intuition discriminate|].
    apply in_app_or in H as [H|H]; [tauto|].
    apply in_app_or in H as [H|H]; [vm_compute in H; intuition discriminate|].
    tauto. }
  assert (Hp : payload (chomp l) = Some (lit "[DONE]")).
  { apply payload_chomp. unfold payload, l. rewrite lit_data.
    replace (startsWith ([100; 97; 116; 97; 58; 32] ++ pad1 ++ lit "[DONE]" ++ pad2)
               (lit ":")) with false by reflexivity.
    destruct (eqb (trim ([100; 97; 116; 97; 58; 32] ++ pad1 ++ lit "[DONE]" ++ pad2)) [])
      eqn:E.
    { apply eqb_eq in E. exfalso. revert E. apply trim_keeps_first. reflexivity. }
    rewrite <- lit_data at 1. rewrite <- lit_data at 1.
    rewrite startsWith_app. simpl negb. cbv iota. simpl orb. cbv iota.
    f_equal.
    change 6 with (Z.of_nat (length [100; 97; 116; 97; 58; 32])).
    rewrite sliceFrom_skipn, skipn_app, skipn_all, Nat.sub_diag. simpl skipn.
    apply trim_padded_done; assumption. }
  rewrite (drainLines_line _ l r Hb Hl), Hp, eqb_refl. reflexivity.
Qed.

End MoreLines.
(** ** [sendMessage] as a whole *)

Section MoreSend.
Context {engine : Engine}.

(** The messages when the read loop returns: those sent, and the
    assistant message with the content accumulated. *)
Lemma readLoop_messages (sent : list Message) (pending : list (list byte)) :
  messages (fst (readLoop (openStream sent) pending)) =
  sent ++ [{| role := assistant;
              content := assistantContent
                           (fst (readLoop (openStream sent) pending)) |}].
Proof. destruct (inSync_readLoop sent pending) as (H & _). exact H. Qed.

(** X12. An input made of white space only is not sent: the call
    changes nothing and issues no request, whatever the network would
    answer. *)
Theorem blank_input_is_not_sent (c : Chat.t) (net : FetchResult) :
  Forall (fun u => isWhiteSpace u = true) (Chat.input c) ->
  sendMessage c net = (c, []).
Proof.
  intros H. unfold sendMessage. rewrite trim_blank by exact H. reflexivity.
Qed.

Lemma send_effects (c : Chat.t) (net : FetchResult) :
  sendDisabled c = false ->
  Chat.loading (fst (sendMessage c net)) = false /\
  Chat.input (fst (sendMessage c net)) = [] /\
  Chat.requests (fst (sendMessage c net)) =
    Chat.requests c ++
    [Chat.messages c ++ [{| role := user; content := Chat.input c |}]].
Proof.
  unfold sendDisabled. intros H. rewrite orb_comm in H.
  unfold sendMessage. rewrite H. simpl.
  destruct net as [|[|] [b|]]; simpl; auto.
  destruct (readLoop _ (fragments b)) as [s unread].
  destruct (streamDone s); [simpl; auto|].
  destruct (ending b); simpl; auto.
Qed.

(** X13. Once the guard is passed, however the request goes, the call
    ends with the loading flag cleared and the input emptied, and exactly
    one request was issued; its body is the messages shown before the
    call followed by the user's message, whose content is the input as
    typed, untrimmed. *)
Theorem send_settles (c : Chat.t) (net : FetchResult) :
  sendDisabled c = false ->
  let c' := fst (sendMessage c net) in
  Chat.loading c' = false /\
  Chat.input c' = [] /\
  Chat.requests c' =
    Chat.requests c ++
    [Chat.messages c ++ [{| role := user; content := Chat.input c |}]].
Proof.
  unfold sendDisabled. intros H. rewrite orb_comm in H.
  unfold sendMessage. rewrite H. simpl.
  destruct net as [|[|] [b|]]; simpl; auto.
  destruct (readLoop _ (fragments b)) as [s unread].
  destruct (streamDone s); [simpl; auto|].
  destruct (ending b); simpl; auto.
Qed.

(** X14. [sendMessage] never alters the messages that were there: the
    list it leaves is the previous list followed by at most two messages
    (the user's, and the assistant's reply). *)
Theorem history_is_kept (c : Chat.t) (net : FetchResult) :
  exists added,
    Chat.messages (fst (sendMessage c net)) = Chat.messages c ++ added /\
    (length added <= 2)%nat.
Proof.
  unfold sendMessage.
  destruct (eqb (trim (Chat.input c)) [] || Chat.loading c).
  { exists []. simpl. rewrite app_nil_r. auto. }
  set (sent := Chat.messages c ++ [{| role := user; content := Chat.input c |}]).
  assert (Hf : slice sent 0 (-1) = Chat.messages c)
    by (unfold sent; rewrite slice_drop_last; apply removelast_last).
  destruct net as [|[|] [b|]]; simpl.
  - exists []. rewrite Hf, app_nil_r. auto.
  - pose proof (readLoop_messages sent (fragments b)) as Hm.
    destruct (readLoop (openStream sent) (fragments b)) as [s unread].
    simpl in Hm.
    assert (Hk : exists added, messages s = Chat.messages c ++ added /\
                               (length added <= 2)%nat).
    { eexists. rewrite Hm. unfold sent. rewrite <- app_assoc.
      split; [reflexivity | simpl; lia]. }
    assert (Hr : slice (messages s) 0 (-1) = sent)
      by (rewrite Hm, slice_drop_last; apply removelast_last).
    destruct (streamDone s); [exact Hk|].
    destruct (ending b); simpl; [exact Hk|].
    rewrite Hr. exists [{| role := user; content := Chat.input c |}].
    split; [reflexivity | simpl; lia].
  - exists [{| role := user; content := Chat.input c |}].
    split; [reflexivity | simpl; lia].
  - exists []. rewrite Hf, app_nil_r. auto.
  - exists []. rewrite Hf, app_nil_r. auto.
Qed.

(** X15. A call raises one toast at most, and when it raises one no
    assistant message of this request is left in the list: the list is
    the previous one, with or without the user's message. *)
Theorem failure_leaves_no_reply (c : Chat.t) (net : FetchResult) :
  let c' := fst (sendMessage c net) in
  Chat.toasts c' = Chat.toasts c \/
  (Chat.toasts c' = S (Chat.toasts c) /\
   (Chat.messages c' = Chat.messages c \/
    Chat.messages c' =
    Chat.messages c ++ [{| role := user; content := Chat.input c |}])).
Proof.
  unfold sendMessage.
  destruct (eqb (trim (Chat.input c)) [] || Chat.loading c); [left; reflexivity|].
  set (sent := Chat.messages c ++ [{| role := user; content := Chat.input c |}]).
  assert (Hf : slice sent 0 (-1) = Chat.messages c)
    by (unfold sent; rewrite slice_drop_last; apply removelast_last).
  destruct net as [|[|] [b|]]; simpl; try (right; rewrite Hf; auto);
    try (left; reflexivity).
  pose proof (readLoop_messages sent (fragments b)) as Hm.
  destruct (readLoop (openStream sent) (fragments b)) as [s unread].
  simpl in Hm.
  destruct (streamDone s); [left; reflexivity|].
  destruct (ending b); simpl; [left; reflexivity|].
  right. rewrite Hm, slice_drop_last, removelast_last. auto.
Qed.

(** X3. Once the sentinel has been read, nothing that would follow
    matters: more fragments, and the way the reader would end, leave the
    result of the call as it is. *)
Theorem after_done_nothing_matters (c : Chat.t)
    (frags more : list (list byte)) (e : Ending) :
  streamDone
    (fst (readLoop
            (openStream
               (Chat.messages c ++ [{| role := user; content := Chat.input c |}]))
            frags)) = true ->
  sendMessage c (Responds true
                   (Some {| fragments := frags ++ more; ending := e |})) =
  sendMessage c (Responds true
                   (Some {| fragments := frags; ending := Closed |})).
Proof.
  intros H. unfold sendMessage.
  destruct (eqb (trim (Chat.input c)) [] || Chat.loading c); [reflexivity|].
  simpl. rewrite readLoop_app, H.
  destruct (readLoop _ frags) as [s unread]. simpl in *. rewrite H. reflexivity.
Qed.

(** X16. When the reader fails after the placeholder was appended
    and before the sentinel, the assistant message is dropped with all it
    had accumulated, the user's message stays, and one toast is
    raised. *)
Theorem reader_failure_rolls_back_reply (c : Chat.t) (b : Body) :
  sendDisabled c = false ->
  ending b = Aborted ->
  streamDone
    (fst (readLoop
            (openStream
               (Chat.messages c ++ [{| role := user; content := Chat.input c |}]))
            (fragments b))) = false ->
  Chat.messages (fst (sendMessage c (Responds true (Some b)))) =
    Chat.messages c ++ [{| role := user; content := Chat.input c |}] /\
  Chat.toasts (fst (sendMessage c (Responds true (Some b)))) =
    S (Chat.toasts c).
Proof.
  unfold sendDisabled. intros Hc He Hd.
  apply orb_false_iff in Hc as [Hl Hi].
  rewrite (failure_during_stream c b Hi Hl He Hd). auto.
Qed.

(** X17. The send button is disabled exactly when a call would do
    nothing: the number of requests issued grows by one when the button
    is enabled and stays when it is disabled, whatever the network
    answers. *)
Theorem send_button_matches_guard (c : Chat.t) (net : FetchResult) :
  length (Chat.requests (fst (sendMessage c net))) =
  (length (Chat.requests c) + (if sendDisabled c then 0 else 1))%nat.
Proof.
  destruct (sendDisabled c) eqn:E.
  - unfold sendDisabled in E. rewrite orb_comm in E.
    unfold sendMessage. rewrite E. simpl. lia.
  - destruct (send_effects c net E) as (_ & _ & Hr).
    rewrite Hr, length_app. simpl. lia.
Qed.


End MoreSend.

(** ** Bounds on the inner loop *)

Section Bounds.
Context {engine : Engine}.

Lemma tryBlock_trace_length (s s' : Stream) (p : jstr) :
  tryBlock s p = Normal s' ->
  (length (trace s') <= S (length (trace s)))%nat.
Proof.
  unfold tryBlock. destruct (contentText p) as [[text|]|]; [| |discriminate];
    intros H; injection H as <-; simpl; [|lia].
  rewrite length_app. simpl. lia.
Qed.

(** X19. The inner loop never adds to the pending buffer: what it
    leaves is no longer than what it found, a line pushed back
    included. *)
Theorem loop_never_grows_buffer (s : Stream) :
  (length (textBuffer (drainLines s)) <= length (textBuffer s))%nat.
Proof.
  induction s as [s Hs | s l r Hb Hl IH] using by_lines.
  - rewrite drainLines_idle by exact Hs. lia.
  - rewrite (drainLines_line s l r Hb Hl), Hb, length_app. simpl length.
    destruct (payload (chomp l)) as [p|].
    + destruct (eqb p (lit "[DONE]")); [simpl; lia|].
      destruct (throws p) eqn:T.
      * rewrite tryBlock_throws by exact T. simpl. rewrite length_app.
        pose proof (chomp_length l). simpl. lia.
      * destruct (tryBlock_completes (setTextBuffer s r) p T)
          as (s' & -> & Hs' & _).
        simpl in Hs'. specialize (IH s'). rewrite Hs' in IH.
        specialize (IH (Nat.le_refl _)). lia.
    + specialize (IH (setTextBuffer s r) (Nat.le_refl _)). simpl in IH. lia.
Qed.

(** X20. The inner loop emits at most one event for each newline in
    the buffer: no line gives two events, and text without a newline
    gives none. *)
Theorem one_event_per_line_at_most (s : Stream) :
  (length (trace (drainLines s)) <=
   length (trace s) + count_occ Z.eq_dec (textBuffer s) LF)%nat.
Proof.
  induction s as [s Hs | s l r Hb Hl IH] using by_lines.
  - rewrite drainLines_idle by exact Hs. lia.
  - rewrite (drainLines_line s l r Hb Hl), Hb, count_occ_app.
    rewrite count_occ_cons_eq by reflexivity.
    destruct (payload (chomp l)) as [p|].
    + destruct (eqb p (lit "[DONE]")); [simpl; rewrite length_app; simpl; lia|].
      destruct (throws p) eqn:T.
      * rewrite tryBlock_throws by exact T. simpl. lia.
      * destruct (tryBlock_completes (setTextBuffer s r) p T)
          as (s' & E & Hs' & _).
        rewrite E. pose proof (tryBlock_trace_length _ _ _ E) as Ht.
        simpl in Hs', Ht. specialize (IH s'). rewrite Hs' in IH.
        specialize (IH (Nat.le_refl _)). lia.
    + specialize (IH (setTextBuffer s r) (Nat.le_refl _)). simpl in IH. lia.
Qed.

End Bounds.

(** ** Worked instances of the further properties *)

Lemma unterminated_tail_is_invisible_witness :
  outcome (fst (@readLoop Reference.engine (openStream [])
                  ([helBytes] ++
                   [bytesText "data: {'choices':[{'delta':{'content':'lo'}}]}"]))) =
  outcome (fst (@readLoop Reference.engine (openStream []) [helBytes])).
Proof.
  exact (@unterminated_tail_is_invisible Reference.engine [] [helBytes]
           (bytesText "data: {'choices':[{'delta':{'content':'lo'}}]}")
           ltac:(no_newline)).
Defined.

Lemma after_done_nothing_matters_witness :
  @sendMessage Reference.engine asking
    (Responds true
       (Some {| fragments := [helBytes; doneBytes] ++ [loBytes];
                ending := Aborted |})) =
  @sendMessage Reference.engine asking
    (Responds true
       (Some {| fragments := [helBytes; doneBytes]; ending := Closed |})).
Proof.
  exact (@after_done_nothing_matters Reference.engine asking
           [helBytes; doneBytes] [loBytes] Aborted
           ltac:(vm_compute; reflexivity)).
Defined.

Lemma non_data_line_is_skipped_witness :
  @drainLines Reference.engine
    (pendingStream (lit "data:[DONE]" ++ LF :: helLine ++ [LF])) =
  @drainLines Reference.engine (pendingStream (helLine ++ [LF])).
Proof.
  exact (proj2
    (@non_data_line_is_skipped Reference.engine
       (pendingStream (lit "data:[DONE]" ++ LF :: helLine ++ [LF]))
       (lit "data:[DONE]") (helLine ++ [LF])
       eq_refl ltac:(no_newline) eq_refl)).
Defined.

Lemma line_without_content_is_consumed_witness :
  @drainLines Reference.engine
    (pendingStream (roleLine ++ LF :: helLine ++ [LF])) =
  @drainLines Reference.engine (pendingStream (helLine ++ [LF])).
Proof.
  exact (proj2
    (@line_without_content_is_consumed Reference.engine
       (pendingStream (roleLine ++ LF :: helLine ++ [LF]))
       roleLine (helLine ++ [LF])
       (textOf "{'choices':[{'delta':{'role':'assistant'}}]}")
       (JObject
          [(lit "choices",
            JArray
              [JObject
                 [(lit "delta",
                   JObject [(lit "role", JString (lit "assistant"))])]])])
       None
       eq_refl ltac:(no_newline) ltac:(vm_compute; reflexivity)
       ltac:(vm_compute; reflexivity) ltac:(vm_compute; reflexivity)
       eq_refl eq_refl)).
Defined.

Lemma null_payload_blocks_stream_witness :
  outcome (fst (@readLoop Reference.engine
                  (pendingStream (lit "data: null" ++ LF :: []))
                  [helBytes; doneBytes])) =
  outcome (pendingStream (lit "data: null" ++ LF :: [])).
Proof.
  exact (proj2
    (@null_payload_blocks_stream Reference.engine
       (pendingStream (lit "data: null" ++ LF :: []))
       (lit "data: null") [] (lit "null") [helBytes; doneBytes]
       eq_refl ltac:(no_newline) ltac:(vm_compute; reflexivity)
       ltac:(vm_compute; reflexivity) ltac:(vm_compute; reflexivity))).
Defined.

Lemma carries_hel : @carries Reference.engine (helLine, lit "Hel").
Proof.
  split; [no_newline|].
  exists (textOf "{'choices':[{'delta':{'content':'Hel'}}]}").
  repeat split; vm_compute; reflexivity.
Defined.

Lemma carries_lo : @carries Reference.engine (loLine, lit "lo").
Proof.
  split; [no_newline|].
  exists (textOf "{'choices':[{'delta':{'content':'lo'}}]}").
  repeat split; vm_compute; reflexivity.
Defined.

Lemma complete_events_are_applied_witness :
  assistantContent
    (@drainLines Reference.engine
       (setTextBuffer (pendingStream [])
          (linesText [(helLine, lit "Hel"); (loLine, lit "lo")] ++
           lit "data: {"))) =
  assistantContent (pendingStream []) ++
  concat (map snd [(helLine, lit "Hel"); (loLine, lit "lo")]).
Proof.
  exact (proj1 (proj2
    (@complete_events_are_applied Reference.engine
       [(helLine, lit "Hel"); (loLine, lit "lo")] (lit "data: {")
       (pendingStream [])
       (Forall_cons _ carries_hel (Forall_cons _ carries_lo (Forall_nil _)))
       ltac:(no_newline)))).
Defined.

Lemma crlf_line_is_lf_line_witness :
  let bad := lit "data: {bad" ++ [CR] in
  outcome (@drainLines Reference.engine
             (setTextBuffer (pendingStream []) (bad ++ CR :: LF :: loLine))) =
  outcome (@drainLines Reference.engine
             (setTextBuffer (pendingStream []) (bad ++ LF :: loLine))) /\
  @drainLines Reference.engine
    (setTextBuffer (pendingStream []) (helLine ++ CR :: LF :: loLine)) =
  @drainLines Reference.engine
    (setTextBuffer (pendingStream []) (helLine ++ LF :: loLine)).
Proof.
  split.
  - exact (proj1 (@crlf_line_is_lf_line Reference.engine (pendingStream [])
             (lit "data: {bad" ++ [CR]) loLine ltac:(no_newline))).
  - exact (proj2 (proj2 (@crlf_line_is_lf_line Reference.engine
             (pendingStream []) helLine loLine ltac:(no_newline)))
             ltac:(vm_compute; reflexivity)).
Defined.

Lemma padded_sentinel_ends_stream_witness :
  @drainLines Reference.engine
    (setTextBuffer (pendingStream [])
       (lit "data: " ++ [32; 9] ++ lit "[DONE]" ++ [32; CR] ++ LF :: helLine)) =
  ended (setTextBuffer (pendingStream []) helLine).
Proof.
  exact (@padded_sentinel_ends_stream Reference.engine (pendingStream [])
           [32; 9] [32; CR] helLine
           ltac:(all_space) ltac:(all_space)
           ltac:(no_newline) ltac:(no_newline)).
Defined.

Lemma blank_input_is_not_sent_witness :
  @sendMessage Reference.engine (typeInput asking [32; 9; 160]) Rejects =
  (typeInput asking [32; 9; 160], []).
Proof.
  exact (@blank_input_is_not_sent Reference.engine
           (typeInput asking [32; 9; 160]) Rejects
           ltac:(all_space)).
Defined.

Lemma send_settles_witness :
  Chat.loading (fst (@sendMessage Reference.engine asking Rejects)) = false /\
  Chat.input (fst (@sendMessage Reference.engine asking Rejects)) = [] /\
  Chat.requests (fst (@sendMessage Reference.engine asking Rejects)) =
    Chat.requests asking ++
    [Chat.messages asking ++
     [{| role := user; content := Chat.input asking |}]].
Proof.
  exact (@send_settles Reference.engine asking Rejects eq_refl).
Defined.

Lemma reader_failure_rolls_back_reply_witness :
  Chat.messages
    (fst (@sendMessage Reference.engine asking
            (Responds true
               (Some {| fragments := [helBytes]; ending := Aborted |})))) =
    Chat.messages asking ++
    [{| role := user; content := Chat.input asking |}] /\
  Chat.toasts
    (fst (@sendMessage Reference.engine asking
            (Responds true
               (Some {| fragments := [helBytes]; ending := Aborted |})))) =
    S (Chat.toasts asking).
Proof.
  exact (@reader_failure_rolls_back_reply Reference.engine asking
           {| fragments := [helBytes]; ending := Aborted |}
           eq_refl eq_refl ltac:(vm_compute; reflexivity)).
Defined.

